(** * scripts/add_cloudkit_to_xcode.py: the pbxproj editors

    A shallow embedding of the script that registers CloudKitPlugin.swift and
    CloudKitService.swift in ios/Runner.xcodeproj/project.pbxproj, and the
    properties of its four text editors and of the pipeline that runs them.

    Python strings are sequences of code points: a character is a number
    ([N]) and a buffer is a list of characters.  The regular expressions of
    the script are written in a small syntax of atoms (literal runs,
    character classes with greedy or lazy repetition) and run by a
    backtracking matcher with the priorities of Python's [re] module;
    [re.sub] scans the buffer from left to right and replaces every match. *)

From Stdlib Require Import NArith Ascii String List Lia Bool.
From stdpp Require Import base option list gmap strings.

Abbreviation char := N (only parsing).
Abbreviation str := (list N) (only parsing).

Open Scope N_scope.

(** ** Characters and literals *)

Definition lit (s : string) : str := map N_of_ascii (list_ascii_of_string s).

Arguments lit _ : simpl never.

Definition tab : char := 9.
Definition nl : char := 10.
Definition dq : char := 34.
Definition backslash : char := 92.

Definition chr_eqb (c d : char) : bool := N.eqb c d.

(** [[A-F0-9]] *)
Definition is_upper_hex (c : char) : bool :=
  ((48 <=? c) && (c <=? 57)) || ((65 <=? c) && (c <=? 70)).

(** [\s] on a [str] pattern: the characters for which [str.isspace] holds. *)
Definition is_space (c : char) : bool :=
  ((9 <=? c) && (c <=? 13)) || ((28 <=? c) && (c <=? 32))
  || (c =? 133) || (c =? 160) || (c =? 5760)
  || ((8192 <=? c) && (c <=? 8202))
  || (c =? 8232) || (c =? 8233) || (c =? 8239) || (c =? 8287) || (c =? 12288).

(** [[^*]] and [[^)]] *)
Definition not_star (c : char) : bool := negb (c =? 42).
Definition not_rparen (c : char) : bool := negb (c =? 41).

(** ** generate_xcode_id

    [secrets.token_hex(12).upper()].  The operating system's random source is
    a stream of bytes read at a cursor; a call consumes twelve of them and
    keeps nothing else. *)

Record rng := { entropy : nat -> N; cursor : nat }.

Definition token_bytes (n : nat) (g : rng) : str * rng :=
  (map (fun i => entropy g (cursor g + i)%nat mod 256) (seq 0 n),
   {| entropy := entropy g; cursor := (cursor g + n)%nat |}).

Definition hex_digit (d : N) : char := if d <? 10 then 48 + d else 87 + d.

Fixpoint hexlify (bs : str) : str :=
  match bs with
  | [] => []
  | b :: bs' => hex_digit (b / 16) :: hex_digit (b mod 16) :: hexlify bs'
  end.

Definition token_hex (n : nat) (g : rng) : str * rng :=
  let '(bs, g') := token_bytes n g in (hexlify bs, g').

(** [str.upper] on ASCII text. *)
Definition upper_char (c : char) : char :=
  if (97 <=? c) && (c <=? 122) then c - 32 else c.

Definition upper (s : str) : str := map upper_char s.

Definition generate_xcode_id (g : rng) : str * rng :=
  let '(h, g') := token_hex 12 g in (upper h, g').

(** ** Regular expressions *)

Inductive atom :=
| Lit (l : str)                       (* a run of literal characters *)
| Rep (n : nat) (f : char -> bool)    (* [..]{n} *)
| Star (f : char -> bool)             (* [..]*, greedy *)
| Plus (f : char -> bool)             (* [..]+, greedy *)
| LazyStar (f : char -> bool).        (* [..]*?, lazy *)

Section Matcher.
Context {A : Type}.

(** Each matcher takes the continuation [k] that runs the rest of the
    pattern on the remaining input; the first alternative for which the
    continuation succeeds wins, as in a backtracking engine. *)

Fixpoint lit_k (l : str) (k : str -> option A) (s : str) : option A :=
  match l with
  | [] => k s
  | c :: l' =>
      match s with
      | d :: s' => if chr_eqb c d then lit_k l' k s' else None
      | [] => None
      end
  end.

Fixpoint rep_k (n : nat) (f : char -> bool) (k : str -> option A) (s : str)
  : option A :=
  match n with
  | O => k s
  | S n' =>
      match s with
      | d :: s' => if f d then rep_k n' f k s' else None
      | [] => None
      end
  end.

Fixpoint star_k (f : char -> bool) (k : str -> option A) (s : str)
  : option A :=
  match s with
  | d :: s' =>
      if f d then
        match star_k f k s' with
        | Some r => Some r
        | None => k s
        end
      else k s
  | [] => k s
  end.

Definition plus_k (f : char -> bool) (k : str -> option A) (s : str)
  : option A :=
  match s with
  | d :: s' => if f d then star_k f k s' else None
  | [] => None
  end.

Fixpoint lazy_k (f : char -> bool) (k : str -> option A) (s : str)
  : option A :=
  match k s with
  | Some r => Some r
  | None =>
      match s with
      | d :: s' => if f d then lazy_k f k s' else None
      | [] => None
      end
  end.

Definition atom_k (a : atom) (k : str -> option A) : str -> option A :=
  match a with
  | Lit l => lit_k l k
  | Rep n f => rep_k n f k
  | Star f => star_k f k
  | Plus f => plus_k f k
  | LazyStar f => lazy_k f k
  end.

Fixpoint atoms_k (p : list atom) (k : str -> option A) : str -> option A :=
  match p with
  | [] => k
  | a :: p' => atom_k a (atoms_k p' k)
  end.
End Matcher.

(** A pattern of the script: two adjacent capture groups. *)
Record pattern := { group1 : list atom; group2 : list atom }.

(** [pattern.match] at the start of [s]: the texts of the two groups and
    the input left after the match. *)
Definition match_at (p : pattern) (s : str) : option (str * str * str) :=
  match atoms_k (group1 p)
          (fun s1 => atoms_k (group2 p) (fun s2 => Some (s1, s2)) s1) s with
  | Some (s1, s2) =>
      Some (take (length s - length s1) s,
            take (length s1 - length s2) s1, s2)
  | None => None
  end.

(** [re.sub(p, repl, s)] with a function [repl] of the two groups: every
    match, found from left to right, is replaced; the scan resumes after
    the match.  [skip] counts the characters of the current match still to
    be passed over.  The patterns of the script all begin with a literal,
    so none of their matches is empty; an empty match would leave its
    replacement in front of the next character. *)
Fixpoint sub_from (p : pattern) (repl : str -> str -> str) (s : str)
  (skip : nat) : str :=
  match s with
  | [] =>
      match match_at p [] with
      | Some (m1, m2, _) => repl m1 m2
      | None => []
      end
  | c :: s' =>
      match skip with
      | S n => sub_from p repl s' n
      | O =>
          match match_at p s with
          | Some (m1, m2, _) =>
              match (length m1 + length m2)%nat with
              | O => repl m1 m2 ++ c :: sub_from p repl s' 0
              | S n => repl m1 m2 ++ sub_from p repl s' n
              end
          | None => c :: sub_from p repl s' 0
          end
      end
  end.

Definition sub (p : pattern) (repl : str -> str -> str) (s : str) : str :=
  sub_from p repl s 0.

(** ** The four editors *)

(** The two dictionaries of the script, with their keys 'plugin' and
    'service'. *)
Record ids := { plugin : str; service : str }.

Definition has_backslash (s : str) : bool := existsb (chr_eqb backslash) s.

(** [re.sub(pattern, template, content)] for a one-group literal pattern and
    a template [text ++ "\1"].  [re] compiles the template before it looks
    for a match, and reads every backslash in it as an escape; with no
    backslash in [text] the template denotes [text] followed by group 1.  A
    [text] with a backslash (possible only through the identifiers) is
    outside this fragment and gives [None], which stands for the [re.error]
    raised on a bad escape. *)
Definition sub_template (anchor text content : str) : option str :=
  if has_backslash text then None
  else Some (sub {| group1 := [Lit anchor]; group2 := [] |}
                 (fun m1 _ => text ++ m1) content).

Definition file_reference_anchor : str := lit "/* End PBXFileReference section */".
Definition build_file_anchor : str := lit "/* End PBXBuildFile section */".

(** One PBXFileReference line, as the f-string builds it. *)
Definition file_reference_entry (id : str) (name : string) : str :=
  [tab; tab] ++ id ++ lit " /* " ++ lit name
  ++ lit " */ = {isa = PBXFileReference; lastKnownFileType = sourcecode.swift; path = "
  ++ lit name ++ lit "; sourceTree = " ++ [dq] ++ lit "<group>" ++ [dq]
  ++ lit "; };" ++ [nl].

Definition add_pbx_file_references (content : str) (file_ids : ids)
  : option str :=
  let plugin_entry := file_reference_entry (plugin file_ids) "CloudKitPlugin.swift" in
  let service_entry := file_reference_entry (service file_ids) "CloudKitService.swift" in
  sub_template file_reference_anchor (plugin_entry ++ service_entry) content.

(** One PBXBuildFile line. *)
Definition build_file_entry (build_id file_id : str) (name : string) : str :=
  [tab; tab] ++ build_id ++ lit " /* " ++ lit name
  ++ lit " in Sources */ = {isa = PBXBuildFile; fileRef = " ++ file_id
  ++ lit " /* " ++ lit name ++ lit " */; };" ++ [nl].

Definition add_pbx_build_files (content : str) (build_ids file_ids : ids)
  : option str :=
  let plugin_entry :=
    build_file_entry (plugin build_ids) (plugin file_ids) "CloudKitPlugin.swift" in
  let service_entry :=
    build_file_entry (service build_ids) (service file_ids) "CloudKitService.swift" in
  sub_template build_file_anchor (plugin_entry ++ service_entry) content.

(** One entry of the group's children list. *)
Definition group_ref (id : str) (name : string) : str :=
  [tab; tab; tab; tab] ++ id ++ lit " /* " ++ lit name ++ lit " */," ++ [nl].

Definition header_line : str :=
  lit "74858FAD1ED2DC5600515810 /* Runner-Bridging-Header.h */," ++ [nl].

Definition group_closing : str := [tab; tab; tab] ++ lit ");".

Definition runner_group_pattern : pattern :=
  {| group1 := [Lit header_line]; group2 := [Lit group_closing] |}.

Definition alt_closing : str :=
  [tab; tab; tab] ++ lit ");" ++ [nl]
  ++ [tab; tab; tab] ++ lit "path = Runner;" ++ [nl]
  ++ [tab; tab; tab] ++ lit "sourceTree = " ++ [dq] ++ lit "<group>" ++ [dq]
  ++ lit ";".

Definition alt_pattern : pattern :=
  {| group1 := [Lit [tab; tab; tab; tab]; Rep 24 is_upper_hex; Lit (lit " /* ");
                Plus not_star; Lit (lit " */," ++ [nl])];
     group2 := [Lit alt_closing] |}.

Definition add_to_runner_group (content : str) (file_ids : ids) : str :=
  let plugin_ref := group_ref (plugin file_ids) "CloudKitPlugin.swift" in
  let service_ref := group_ref (service file_ids) "CloudKitService.swift" in
  let runner_group_replacer header closing :=
    header ++ plugin_ref ++ service_ref ++ closing in
  let result := sub runner_group_pattern runner_group_replacer content in
  if decide (result = content) then
    sub alt_pattern (fun m1 m2 => m1 ++ plugin_ref ++ service_ref ++ m2) result
  else result.

(** One entry of the phase's files list. *)
Definition phase_ref (id : str) (name : string) : str :=
  [tab; tab; tab; tab] ++ id ++ lit " /* " ++ lit name ++ lit " in Sources */,"
  ++ [nl].

Definition phase_closing : str := [tab; tab] ++ lit ");".

Definition sources_phase_pattern : pattern :=
  {| group1 := [Lit (lit "97C146EA1CF9000F007C117D /* Sources */ = {");
                Star is_space; Lit (lit "isa = PBXSourcesBuildPhase;");
                Star is_space; Lit (lit "buildActionMask = 2147483647;");
                Star is_space; Lit (lit "files = (");
                Star is_space; LazyStar not_rparen];
     group2 := [Lit phase_closing] |}.

Definition add_to_sources_build_phase (content : str) (build_ids : ids) : str :=
  let plugin_ref := phase_ref (plugin build_ids) "CloudKitPlugin.swift" in
  let service_ref := phase_ref (service build_ids) "CloudKitService.swift" in
  let sources_replacer files_content closing :=
    files_content ++ plugin_ref ++ service_ref ++ closing in
  sub sources_phase_pattern sources_replacer content.

(** The four editors in the order of [modify_pbxproj]. *)
Definition pipeline (content : str) (file_ids build_ids : ids) : option str :=
  content ← add_pbx_build_files content build_ids file_ids;
  content ← add_pbx_file_references content file_ids;
  let content := add_to_runner_group content file_ids in
  Some (add_to_sources_build_phase content build_ids).


(** ** The language of a pattern

    What a pattern matches, stated without the matcher: the matched text
    splits into one piece per atom. *)

Inductive lang_atom : atom -> str -> Prop :=
| la_lit l : lang_atom (Lit l) l
| la_rep n f m :
    length m = n -> Forall (fun c => f c = true) m -> lang_atom (Rep n f) m
| la_star f m : Forall (fun c => f c = true) m -> lang_atom (Star f) m
| la_plus f m :
    m <> [] -> Forall (fun c => f c = true) m -> lang_atom (Plus f) m
| la_lazy f m : Forall (fun c => f c = true) m -> lang_atom (LazyStar f) m.

Fixpoint lang (p : list atom) (m : str) : Prop :=
  match p with
  | [] => m = []
  | a :: p' => exists m1 m2, m = m1 ++ m2 /\ lang_atom a m1 /\ lang p' m2
  end.

(** The pattern has a match somewhere in the buffer. *)
Definition occurs (p : pattern) (s : str) : Prop :=
  exists pre m1 m2 post,
    s = pre ++ m1 ++ m2 ++ post /\ lang (group1 p) m1 /\ lang (group2 p) m2.

(** A literal occurs at position [i]. *)
Definition occ_at (a s : str) (i : nat) : Prop := a `prefix_of` drop i s.

(** The only occurrence of [a] in [s] is at position [i]. *)
Definition only_at (a s : str) (i : nat) : Prop :=
  forall j, occ_at a s j -> j = i.

(** A substring somewhere in the buffer. *)
Definition substring (a s : str) : Prop := exists pre post, s = pre ++ a ++ post.


(** ** Insertions

    [inserted ins G1 G2 s t]: the buffer [t] is [s] with copies of [ins] put
    in, each one between a text of [G1] and a text of [G2] that were
    adjacent in [s]; nothing else differs. *)

Inductive inserted (ins : str) (G1 G2 : str -> Prop) : str -> str -> Prop :=
| ins_nil : inserted ins G1 G2 [] []
| ins_keep c s t :
    inserted ins G1 G2 s t -> inserted ins G1 G2 (c :: s) (c :: t)
| ins_here m1 m2 s t :
    G1 m1 -> G2 m2 -> inserted ins G1 G2 s t ->
    inserted ins G1 G2 (m1 ++ m2 ++ s) (m1 ++ ins ++ m2 ++ t).

(** ** Counting substrings *)

Fixpoint starts_with (t s : str) : bool :=
  match t with
  | [] => true
  | c :: t' =>
      match s with
      | [] => false
      | d :: s' => chr_eqb c d && starts_with t' s'
      end
  end.

(** The number of positions of [s] at which [t] occurs. *)
Fixpoint count_sub (t s : str) : nat :=
  match s with
  | [] => O
  | _ :: s' => ((if starts_with t s then 1 else 0) + count_sub t s')%nat
  end.

Definition contains (t s : str) : bool := negb (Nat.eqb (count_sub t s) 0).

(** ** Texts with generated identifiers in them

    An entry built by an editor is known up to the characters of the
    identifiers, which are upper-case hexadecimal digits.  [AH] stands for
    such a digit, [AK c] for the character [c]. *)

Inductive achar := AK (c : char) | AH.

Definition concr (a : achar) (c : char) : Prop :=
  match a with
  | AK k => c = k
  | AH => is_upper_hex c = true
  end.

(** Does [t] start the text?  [Some b] when the answer is [b] whatever the
    digits are, [None] when it depends on them. *)
Fixpoint starts_abs (t : str) (x : list achar) : option bool :=
  match t with
  | [] => Some true
  | c :: t' =>
      match x with
      | [] => Some false
      | AK k :: x' => if chr_eqb c k then starts_abs t' x' else Some false
      | AH :: x' =>
          if is_upper_hex c then
            match starts_abs t' x' with
            | Some false => Some false
            | _ => None
            end
          else Some false
      end
  end.

Fixpoint count_abs (t : str) (x : list achar) : option nat :=
  match x with
  | [] => Some O
  | _ :: x' =>
      match starts_abs t x, count_abs t x' with
      | Some b, Some n => Some ((if b then 1 else 0) + n)%nat
      | _, _ => None
      end
  end.

(** [t] agrees with the text as far as both go. *)
Fixpoint compat_abs (t : str) (x : list achar) : bool :=
  match t, x with
  | c :: t', AK k :: x' => chr_eqb c k && compat_abs t' x'
  | c :: t', AH :: x' => is_upper_hex c && compat_abs t' x'
  | _, _ => true
  end.

(** No proper suffix of [t] can begin a text that starts with [x]. *)
Definition no_straddle (t : str) (x : list achar) : bool :=
  forallb (fun k => negb (compat_abs (drop k t) x)) (seq 1 (length t - 1)).

Definition known (s : str) : list achar := map AK s.

Definition hex24 : list achar := replicate 24 AH.

(** An identifier as [generate_xcode_id] makes them. *)
Definition xcode_id (s : str) : Prop :=
  length s = 24%nat /\ Forall (fun c => is_upper_hex c = true) s.

(** The entries of the editors, with the identifiers left open. *)
Definition abs_file_reference_entry (name : string) : list achar :=
  known [tab; tab] ++ hex24 ++ known (lit " /* ") ++ known (lit name)
  ++ known (lit " */ = {isa = PBXFileReference; lastKnownFileType = sourcecode.swift; path = ")
  ++ known (lit name) ++ known (lit "; sourceTree = ") ++ known [dq]
  ++ known (lit "<group>") ++ known [dq] ++ known (lit "; };") ++ known [nl].

Definition abs_build_file_entry (name : string) : list achar :=
  known [tab; tab] ++ hex24 ++ known (lit " /* ") ++ known (lit name)
  ++ known (lit " in Sources */ = {isa = PBXBuildFile; fileRef = ") ++ hex24
  ++ known (lit " /* ") ++ known (lit name) ++ known (lit " */; };")
  ++ known [nl].

Definition abs_group_ref (name : string) : list achar :=
  known [tab; tab; tab; tab] ++ hex24 ++ known (lit " /* ") ++ known (lit name)
  ++ known (lit " */,") ++ known [nl].

Definition abs_phase_ref (name : string) : list achar :=
  known [tab; tab; tab; tab] ++ hex24 ++ known (lit " /* ") ++ known (lit name)
  ++ known (lit " in Sources */,") ++ known [nl].

(** A literal with no tab and no newline in it. *)
Definition plainb (t : str) : bool :=
  negb (Nat.eqb (length t) 0)
  && forallb (fun c => negb (chr_eqb c tab) && negb (chr_eqb c nl)) t.

Definition is_known (c : char) (a : achar) : bool :=
  match a with
  | AK k => chr_eqb k c
  | AH => false
  end.

(** A text that runs from a tab to a newline. *)
Definition abs_block (x : list achar) : bool :=
  match x with
  | a :: r =>
      is_known tab a
      && match last r with
         | Some b => is_known nl b
         | None => false
         end
  | [] => false
  end.

(** No text of the concretisation holds [c]. *)
Definition abs_avoids (c : char) (x : list achar) : bool :=
  negb (is_upper_hex c) && forallb (fun a => negb (is_known c a)) x.

(** One line: a block whose only newline is the last character. *)
Definition abs_line (x : list achar) : bool :=
  abs_block x && abs_avoids nl (removelast x).

(** The literal [t] is neither in the block [x] nor able to overlap its
    ends. *)
Definition inert (t : str) (x : list achar) : bool :=
  plainb t && abs_block x
  && match count_abs t x with
     | Some O => true
     | _ => false
     end.

(** ** What each editor inserts *)

Definition build_entries (build_ids file_ids : ids) : str :=
  build_file_entry (plugin build_ids) (plugin file_ids) "CloudKitPlugin.swift"
  ++ build_file_entry (service build_ids) (service file_ids) "CloudKitService.swift".

Definition reference_entries (file_ids : ids) : str :=
  file_reference_entry (plugin file_ids) "CloudKitPlugin.swift"
  ++ file_reference_entry (service file_ids) "CloudKitService.swift".

Definition group_refs (file_ids : ids) : str :=
  group_ref (plugin file_ids) "CloudKitPlugin.swift"
  ++ group_ref (service file_ids) "CloudKitService.swift".

Definition phase_refs (build_ids : ids) : str :=
  phase_ref (plugin build_ids) "CloudKitPlugin.swift"
  ++ phase_ref (service build_ids) "CloudKitService.swift".

Definition abs_build_entries : list achar :=
  abs_build_file_entry "CloudKitPlugin.swift"
  ++ abs_build_file_entry "CloudKitService.swift".

Definition abs_reference_entries : list achar :=
  abs_file_reference_entry "CloudKitPlugin.swift"
  ++ abs_file_reference_entry "CloudKitService.swift".

Definition abs_group_refs : list achar :=
  abs_group_ref "CloudKitPlugin.swift" ++ abs_group_ref "CloudKitService.swift".

Definition abs_phase_refs : list achar :=
  abs_phase_ref "CloudKitPlugin.swift" ++ abs_phase_ref "CloudKitService.swift".

Definition xcode_ids (i : ids) : Prop := xcode_id (plugin i) /\ xcode_id (service i).

(** The patterns of the two template editors. *)
Definition literal_pattern (anchor : str) : pattern :=
  {| group1 := [Lit anchor]; group2 := [] |}.

(** The literal that begins each of the two regular expressions with a
    group after it. *)
Definition header_key : str :=
  lit "74858FAD1ED2DC5600515810 /* Runner-Bridging-Header.h */,".

Definition phase_key : str := lit "97C146EA1CF9000F007C117D /* Sources */ = {".

Definition runner_key : str := lit "path = Runner;".

(** ** Records and entries in a buffer *)

Definition reference_records (s : str) : nat :=
  count_sub (lit "isa = PBXFileReference;") s.

Definition build_records (s : str) : nat :=
  count_sub (lit "isa = PBXBuildFile;") s.

(** Entries of a listing end in a comment and a comma; those of the Sources
    phase name their file "in Sources". *)
Definition phase_listing_entries (s : str) : nat :=
  count_sub (lit " in Sources */,") s.

Definition group_listing_entries (s : str) : nat :=
  (count_sub (lit " */,") s - count_sub (lit " in Sources */,") s)%nat.

(** ** Lines, as grep sees them *)

Fixpoint lines (s : str) : list str :=
  match s with
  | [] => [[]]
  | c :: s' =>
      if chr_eqb c nl then [] :: lines s'
      else match lines s' with
           | l :: ls => (c :: l) :: ls
           | [] => [[c]]
           end
  end.

Definition grep_count (t s : str) : nat :=
  length (List.filter (contains t) (lines s)).

(** ** Checks that compute *)

Definition only_atb (a s : str) (p : nat) : bool :=
  forallb (fun i => implb (starts_with a (drop i s)) (Nat.eqb i p))
    (seq 0 (S (length s))).

Definition in_lang (p : list atom) (m : str) : bool :=
  match atoms_k p (fun r => match r with [] => Some tt | _ => None end) m with
  | Some _ => true
  | None => false
  end.

(** No text of the atoms holds the character [c]. *)
Definition atom_avoids (c : char) (a : atom) : bool :=
  match a with
  | Lit l => negb (existsb (chr_eqb c) l)
  | Rep _ f | Star f | Plus f | LazyStar f => negb (f c)
  end.

Definition atoms_avoid (c : char) (p : list atom) : bool :=
  forallb (atom_avoids c) p.

(** [ins] put in right in front of a text that begins with [closing]. *)
Definition inserted_before (ins closing s t : str) : Prop :=
  inserted ins (fun _ => True) (fun m => closing `prefix_of` m) s t.

(** Identifiers that leave the replacement template of the two section
    editors free of escapes. *)
Definition template_safe (i : ids) : Prop :=
  has_backslash (plugin i) = false /\ has_backslash (service i) = false.

(** The replacement functions of the group editor and of the phase editor. *)
Definition group_replacer (file_ids : ids) (m1 m2 : str) : str :=
  m1 ++ group_ref (plugin file_ids) "CloudKitPlugin.swift"
     ++ group_ref (service file_ids) "CloudKitService.swift" ++ m2.

Definition sources_replacer (build_ids : ids) (m1 m2 : str) : str :=
  m1 ++ phase_ref (plugin build_ids) "CloudKitPlugin.swift"
     ++ phase_ref (service build_ids) "CloudKitService.swift" ++ m2.

(** A child entry of a group: four tabs, a token, a label in a comment. *)
Definition child_entry (token label : str) : str :=
  [tab; tab; tab; tab] ++ token ++ lit " /* " ++ label ++ lit " */," ++ [nl].

(** [t] is [s] with [ins] put in at some places. *)
Definition with_insertions (ins s t : str) : Prop :=
  inserted ins (fun _ => True) (fun _ => True) s t.

(** [t] is [s] with [ins] put in front of the first occurrence of [anchor]
    and nowhere else. *)
Definition edits_first_only (anchor ins s t : str) : Prop :=
  exists u v,
    s = u ++ anchor ++ v
    /\ (forall i, (i < length u)%nat -> ~ occ_at anchor s i)
    /\ t = u ++ ins ++ anchor ++ v.

(** A match of the pattern starts at position [i]. *)
Definition match_starts (p : pattern) (s : str) (i : nat) : Prop :=
  exists m1 m2 r,
    drop i s = m1 ++ m2 ++ r /\ lang (group1 p) m1 /\ lang (group2 p) m2.

Definition searchb (p : pattern) (s : str) : bool :=
  existsb (fun i => match match_at p (drop i s) with
                    | Some _ => true
                    | None => false
                    end)
    (seq 0 (S (length s))).

(** ** Sample buffers and identifiers *)

Definition sample_file_ids : ids :=
  {| plugin := lit "0A1B2C3D4E5F60718293A4B5";
     service := lit "C6D7E8F9000102030405060A" |}.

Definition sample_build_ids : ids :=
  {| plugin := lit "B0B1B2B3B4B5B6B7B8B9BABB";
     service := lit "D0D1D2D3D4D5D6D7D8D9DADB" |}.

Definition second_file_ids : ids :=
  {| plugin := lit "1111AAAA2222BBBB3333CCCC";
     service := lit "4444DDDD5555EEEE6666FFFF" |}.

Definition second_build_ids : ids :=
  {| plugin := lit "ABCDEF0123456789ABCDEF01";
     service := lit "FEDCBA9876543210FEDCBA98" |}.

Definition plain_text : str := lit "// !$*UTF8*$!" ++ [nl] ++ lit "{" ++ [nl] ++ lit "}" ++ [nl].

(** The phase block up to the end of its (empty) files list. *)
Definition sample_phase_block : str :=
  lit "97C146EA1CF9000F007C117D /* Sources */ = {" ++ [nl; tab; tab; tab]
  ++ lit "isa = PBXSourcesBuildPhase;" ++ [nl; tab; tab; tab]
  ++ lit "buildActionMask = 2147483647;" ++ [nl; tab; tab; tab]
  ++ lit "files = (" ++ [nl; tab].

(** A manifest with the four anchors and nothing else of note. *)
Definition minimal_manifest : str :=
  lit "/* Begin PBXBuildFile section */" ++ [nl]
  ++ build_file_anchor ++ [nl]
  ++ lit "/* Begin PBXFileReference section */" ++ [nl]
  ++ file_reference_anchor ++ [nl]
  ++ [tab; tab; tab] ++ lit "children = (" ++ [nl]
  ++ [tab; tab; tab; tab] ++ header_line ++ group_closing ++ [nl]
  ++ [tab; tab] ++ sample_phase_block ++ phase_closing ++ [nl].

Definition runner_tail : str :=
  [nl] ++ [tab; tab; tab] ++ lit "path = Runner;" ++ [nl]
  ++ [tab; tab; tab] ++ lit "sourceTree = " ++ [dq] ++ lit "<group>" ++ [dq]
  ++ lit ";".

(** The same with the path and sourceTree lines of the Runner group. *)
Definition runner_manifest : str :=
  lit "/* Begin PBXBuildFile section */" ++ [nl]
  ++ build_file_anchor ++ [nl]
  ++ lit "/* Begin PBXFileReference section */" ++ [nl]
  ++ file_reference_anchor ++ [nl]
  ++ [tab; tab; tab] ++ lit "children = (" ++ [nl]
  ++ [tab; tab; tab; tab] ++ header_line ++ group_closing ++ runner_tail
  ++ [nl] ++ [tab; tab] ++ lit "};" ++ [nl]
  ++ [tab; tab] ++ sample_phase_block ++ phase_closing ++ [nl].

(** A Runner group whose last child is not the bridging header. *)
Definition fallback_manifest : str :=
  [tab; tab; tab] ++ lit "children = (" ++ [nl]
  ++ [tab; tab; tab; tab] ++ header_line
  ++ child_entry (lit "97C146FA1CF9000F007C117D") (lit "Main.storyboard")
  ++ group_closing ++ runner_tail ++ [nl].

(** The minimal manifest with the end marker of the build-file section
    written twice. *)
Definition doubled_manifest : str :=
  build_file_anchor ++ [nl] ++ minimal_manifest.

Definition twice_anchor : str :=
  file_reference_anchor ++ [nl] ++ file_reference_anchor ++ [nl].

(** ** A manifest by its parts

    The four anchors in the order of the sections of a project file, and
    the text around them. *)

Record parts := {
  before_build : str;  (* up to the end marker of the build-file section *)
  before_refs : str;   (* on to the end marker of the file-reference section *)
  before_group : str;  (* on to the bridging-header entry of the Runner group *)
  before_phase : str;  (* from the closing delimiter of the group to the phase *)
  phase_block : str;   (* the Sources phase, up to the closing delimiter of its files *)
  after_phase : str    (* what follows that delimiter *)
}.

(** The manifest with [eb], [er], [eg] and [es] in the four places where the
    editors insert. *)
Definition assemble (x : parts) (eb er eg es : str) : str :=
  before_build x ++ eb ++ build_file_anchor
  ++ before_refs x ++ er ++ file_reference_anchor
  ++ before_group x ++ header_line ++ eg ++ group_closing
  ++ before_phase x ++ phase_block x ++ es ++ phase_closing
  ++ after_phase x.

Definition manifest_of (x : parts) : str := assemble x [] [] [] [].

(** The text in front of each place of insertion, and behind it. *)
Definition head_build (x : parts) (eb : str) : str := before_build x ++ eb.

Definition head_refs (x : parts) (eb er : str) : str :=
  head_build x eb ++ build_file_anchor ++ before_refs x ++ er.

Definition head_group (x : parts) (eb er eg : str) : str :=
  head_refs x eb er ++ file_reference_anchor ++ before_group x ++ header_line
  ++ eg.

Definition head_phase (x : parts) (eb er eg es : str) : str :=
  head_group x eb er eg ++ group_closing ++ before_phase x ++ phase_block x
  ++ es.

Definition tail_phase (x : parts) : str := phase_closing ++ after_phase x.

Definition tail_group (x : parts) (es : str) : str :=
  group_closing ++ before_phase x ++ phase_block x ++ es ++ tail_phase x.

Definition tail_refs (x : parts) (eg es : str) : str :=
  file_reference_anchor ++ before_group x ++ header_line ++ eg
  ++ tail_group x es.

Definition tail_build (x : parts) (er eg es : str) : str :=
  build_file_anchor ++ before_refs x ++ er ++ tail_refs x eg es.

(** Each anchor has one occurrence, where [assemble] puts it. *)
Definition anchored (x : parts) (eb er eg es : str) : Prop :=
  only_at build_file_anchor (assemble x eb er eg es) (length (head_build x eb))
  /\ only_at file_reference_anchor (assemble x eb er eg es)
       (length (head_refs x eb er))
  /\ only_at header_key (assemble x eb er eg es)
       (length (head_refs x eb er ++ file_reference_anchor ++ before_group x))
  /\ only_at phase_key (assemble x eb er eg es)
       (length (head_group x eb er eg ++ group_closing ++ before_phase x)).

(** The manifests of the pipeline claims: the phase block is a text of the
    first group of the phase pattern, and no anchor occurs a second time. *)
Definition well_anchored (x : parts) : Prop :=
  lang (group1 sources_phase_pattern) (phase_block x)
  /\ anchored x [] [] [] [].

(** The closing delimiter of the group is followed by the path and
    sourceTree lines of the Runner group, and "path = Runner;" is written
    nowhere else. *)
Definition runner_anchored (x : parts) (eb er eg es : str) : Prop :=
  runner_tail `prefix_of` before_phase x
  /\ only_at runner_key (assemble x eb er eg es)
       (length (head_group x eb er eg) + 9).

(** The four counts of the pipeline claims grow by [n] each. *)
Definition adds_of_each (n : nat) (input output : str) : Prop :=
  reference_records output = (reference_records input + n)%nat
  /\ build_records output = (build_records input + n)%nat
  /\ group_listing_entries output = (group_listing_entries input + n)%nat
  /\ phase_listing_entries output = (phase_listing_entries input + n)%nat.

(** The anchors of the pipeline claims are in the buffer. *)
Definition has_four_anchors (s : str) : Prop :=
  substring build_file_anchor s /\ substring file_reference_anchor s
  /\ substring (header_line ++ group_closing) s
  /\ occurs sources_phase_pattern s.

Definition minimal_parts : parts :=
  {| before_build := lit "/* Begin PBXBuildFile section */" ++ [nl];
     before_refs := [nl] ++ lit "/* Begin PBXFileReference section */" ++ [nl];
     before_group :=
       [nl] ++ [tab; tab; tab] ++ lit "children = (" ++ [nl]
       ++ [tab; tab; tab; tab];
     before_phase := [nl] ++ [tab; tab];
     phase_block := sample_phase_block;
     after_phase := [nl] |}.

Definition runner_parts : parts :=
  {| before_build := lit "/* Begin PBXBuildFile section */" ++ [nl];
     before_refs := [nl] ++ lit "/* Begin PBXFileReference section */" ++ [nl];
     before_group :=
       [nl] ++ [tab; tab; tab] ++ lit "children = (" ++ [nl]
       ++ [tab; tab; tab; tab];
     before_phase :=
       runner_tail ++ [nl] ++ [tab; tab] ++ lit "};" ++ [nl] ++ [tab; tab];
     phase_block := sample_phase_block;
     after_phase := [nl] |}.

(** The lines that grep finds for the two file names, as C4 counts them. *)
Definition grep_counts (out : str) : list nat :=
  [grep_count (lit "CloudKitPlugin.swift") out;
   grep_count (lit "CloudKitPlugin.swift in Sources") out;
   grep_count (lit "CloudKitService.swift") out;
   grep_count (lit "CloudKitService.swift in Sources") out].

(** The stretches of a manifest between the places of insertion. *)
Definition stretch_refs (x : parts) : str := build_file_anchor ++ before_refs x.

Definition stretch_group (x : parts) : str :=
  file_reference_anchor ++ before_group x ++ header_line.

Definition stretch_phase (x : parts) : str :=
  group_closing ++ before_phase x ++ phase_block x.

(** One line found, or none. *)
Definition hit (n : nat) : nat := if Nat.eqb n 0 then 0%nat else 1%nat.

(** ** The file system and modify_pbxproj

    The files are a map from paths to contents; every [write_text] is also
    logged, so that the writes of a run can be counted. *)

Record world := {
  files : gmap string (list N);
  writes : list (string * list N);
  stdout : list (list N)
}.

Inductive exn :=
| FileNotFoundError (path : string)
| ReError.

Inductive result (A : Type) :=
| Ok (a : A)
| Raise (e : exn).

Arguments Ok {A} a.
Arguments Raise {A} e.

(** [project_path / "project.pbxproj"] *)
Definition pbxproj_path (project_path : string) : string :=
  (project_path +:+ "/project.pbxproj")%string.

Definition read_pbxproj (project_path : string) (w : world) : result str :=
  match files w !! pbxproj_path project_path with
  | None => Raise (FileNotFoundError (pbxproj_path project_path))
  | Some content => Ok content
  end.

Definition write_pbxproj (project_path : string) (content : str) (w : world)
  : world :=
  {| files := <[pbxproj_path project_path := content]> (files w);
     writes := writes w ++ [(pbxproj_path project_path, content)];
     stdout := stdout w |}.

Definition print (line : str) (w : world) : world :=
  {| files := files w; writes := writes w; stdout := stdout w ++ [line] |}.

(** The two dictionaries of identifiers, in the order of the four calls. *)
Definition generate_ids (g : rng) : ids * ids * rng :=
  let '(fp, g) := generate_xcode_id g in
  let '(fs, g) := generate_xcode_id g in
  let '(bp, g) := generate_xcode_id g in
  let '(bs, g) := generate_xcode_id g in
  ({| plugin := fp; service := fs |}, {| plugin := bp; service := bs |}, g).

Definition print_ids (file_ids build_ids : ids) (w : world) : world :=
  let w := print (lit "Generated PBXFileReference IDs:") w in
  let w := print (lit "  CloudKitPlugin.swift: " ++ plugin file_ids) w in
  let w := print (lit "  CloudKitService.swift: " ++ service file_ids) w in
  let w := print (lit "Generated PBXBuildFile IDs:") w in
  let w := print (lit "  CloudKitPlugin.swift: " ++ plugin build_ids) w in
  print (lit "  CloudKitService.swift: " ++ service build_ids) w.

Definition modify_pbxproj (project_path : string) (w : world) (g : rng)
  : result bool * world * rng :=
  match read_pbxproj project_path w with
  | Raise e => (Raise e, w, g)
  | Ok content =>
      let '(file_ids, build_ids, g) := generate_ids g in
      let w := print_ids file_ids build_ids w in
      match add_pbx_build_files content build_ids file_ids with
      | None => (Raise ReError, w, g)
      | Some content =>
          let w := print (lit "Added PBXBuildFile entries") w in
          match add_pbx_file_references content file_ids with
          | None => (Raise ReError, w, g)
          | Some content =>
              let w := print (lit "Added PBXFileReference entries") w in
              let content := add_to_runner_group content file_ids in
              let w := print (lit "Added files to Runner group") w in
              let content := add_to_sources_build_phase content build_ids in
              let w := print (lit "Added files to Sources build phase") w in
              let w := write_pbxproj project_path content w in
              let w :=
                print (lit "Updated "
                       ++ lit (pbxproj_path project_path)) w in
              (Ok true, w, g)
          end
      end
  end.

(** A random source that gives the same byte for ever. *)
Definition constant_rng (b : N) : rng := {| entropy := fun _ => b; cursor := 0 |}.

Definition sample_world : world :=
  {| files := {[ pbxproj_path "ios/Runner.xcodeproj" := minimal_manifest ]};
     writes := [];
     stdout := [] |}.

(** ** verify_files_exist and main

    [a / b] on paths puts a separator between the two.  [Path.exists] holds
    of a regular file and of a directory: the regular files are the keys of
    [files], the directories are a set of paths beside them. *)

Definition path_join (p segment : string) : string :=
  (p +:+ "/" +:+ segment)%string.

Definition path_exists (dirs : gset string) (w : world) (p : string) : bool :=
  bool_decide (is_Some (files w !! p)) || bool_decide (p ∈ dirs).

(** [project_root / "ios" / "Runner" / name] *)
Definition swift_path (project_root name : string) : string :=
  path_join (path_join (path_join project_root "ios") "Runner") name.

Definition verify_files_exist (dirs : gset string) (project_root : string)
    (w : world) : bool * world :=
  let plugin_path := swift_path project_root "CloudKitPlugin.swift" in
  let service_path := swift_path project_root "CloudKitService.swift" in
  if negb (path_exists dirs w plugin_path) then
    (false,
     print (lit "Error: " ++ lit plugin_path ++ lit " does not exist") w)
  else if negb (path_exists dirs w service_path) then
    (false,
     print (lit "Error: " ++ lit service_path ++ lit " does not exist") w)
  else
    let w := print (lit "Verified: " ++ lit plugin_path) w in
    let w := print (lit "Verified: " ++ lit service_path) w in
    (true, w).

(** [project_root / "ios" / "Runner.xcodeproj"] *)
Definition xcode_project (project_root : string) : string :=
  path_join (path_join project_root "ios") "Runner.xcodeproj".

(** [str(e)] of an exception.  The text of a [re.error] depends on the
    escape that was refused and is left open as [re_message]. *)
Definition exn_text (re_message : str) (e : exn) : str :=
  match e with
  | FileNotFoundError path => lit "project.pbxproj not found at " ++ lit path
  | ReError => re_message
  end.

(** The lines that follow a run of [modify_pbxproj] that returned [True]. *)
Definition print_next_steps (w : world) : world :=
  let w := print [] w in
  let w := print (lit "Successfully added CloudKit files to Xcode project!") w in
  let w := print [] w in
  let w := print (lit "Next steps:") w in
  let w := print (lit "  1. Open ios/Runner.xcodeproj in Xcode") w in
  let w :=
    print (lit "  2. Verify CloudKitPlugin.swift and CloudKitService.swift appear in the Runner group") w in
  print (lit "  3. Build the project to ensure everything compiles") w.

(** [main], from the project root that it computes from the script's own
    path to the exit status of the process: 1 where the script calls
    [sys.exit(1)], 0 where [main] returns.  The traceback of the handler
    goes to the error stream, which the world does not keep. *)
Definition main (re_message : str) (dirs : gset string)
    (project_root : string) (w : world) (g : rng) : N * world * rng :=
  let '(verified, w) := verify_files_exist dirs project_root w in
  if negb verified then (1, w, g)
  else if negb (path_exists dirs w (xcode_project project_root)) then
    (1,
     print (lit "Error: Xcode project not found at "
            ++ lit (xcode_project project_root)) w,
     g)
  else
    let w :=
      print (lit "Modifying Xcode project at: "
             ++ lit (xcode_project project_root)) w in
    let w := print [] w in
    match modify_pbxproj (xcode_project project_root) w g with
    | (Ok true, w, g) => (0, print_next_steps w, g)
    | (Ok false, w, g) =>
        (1, print (lit "Error: Failed to modify pbxproj file") w, g)
    | (Raise e, w, g) =>
        (1, print (lit "Error: " ++ exn_text re_message e) w, g)
    end.

(** The lines that a run of [modify_pbxproj] prints when it gets to its
    end. *)
Definition run_report (file_ids build_ids : ids) (project_path : string)
  : list str :=
  [lit "Generated PBXFileReference IDs:";
   lit "  CloudKitPlugin.swift: " ++ plugin file_ids;
   lit "  CloudKitService.swift: " ++ service file_ids;
   lit "Generated PBXBuildFile IDs:";
   lit "  CloudKitPlugin.swift: " ++ plugin build_ids;
   lit "  CloudKitService.swift: " ++ service build_ids;
   lit "Added PBXBuildFile entries";
   lit "Added PBXFileReference entries";
   lit "Added files to Runner group";
   lit "Added files to Sources build phase";
   lit "Updated " ++ lit (pbxproj_path project_path)].

(** The twelve bytes that the [k]-th call of [generate_xcode_id] reads,
    counted from the state [g]. *)
Definition drawn (g : rng) (k : nat) : str :=
  map (fun i => entropy g (cursor g + 12 * k + i)%nat mod 256) (seq 0 12).

(** A random source that counts: its [i]-th byte is [i]. *)
Definition counting_rng : rng := {| entropy := N.of_nat; cursor := 0 |}.

(** The editors in the reverse of the order of [modify_pbxproj]. *)
Definition reversed_pipeline (content : str) (file_ids build_ids : ids)
  : option str :=
  let content := add_to_sources_build_phase content build_ids in
  let content := add_to_runner_group content file_ids in
  content ← add_pbx_file_references content file_ids;
  add_pbx_build_files content build_ids file_ids.

(** A project with the two Swift files, the project directory and the
    minimal manifest in it. *)
Definition project_world : world :=
  {| files :=
       {[ "/app/ios/Runner/CloudKitPlugin.swift"%string := lit "import Flutter";
          "/app/ios/Runner/CloudKitService.swift"%string := lit "import CloudKit";
          pbxproj_path "/app/ios/Runner.xcodeproj" := minimal_manifest ]};
     writes := [];
     stdout := [] |}.

Definition project_dirs : gset string :=
  {[ "/app"%string; "/app/ios"%string; "/app/ios/Runner"%string;
     "/app/ios/Runner.xcodeproj"%string ]}.

(** The same project without the second Swift file. *)
Definition plugin_only_world : world :=
  {| files :=
       {[ "/app/ios/Runner/CloudKitPlugin.swift"%string := lit "import Flutter";
          pbxproj_path "/app/ios/Runner.xcodeproj" := minimal_manifest ]};
     writes := [];
     stdout := [] |}.

(** A manifest with none of the four anchors. *)
Definition plain_world : world :=
  {| files := {[ pbxproj_path "ios/Runner.xcodeproj" := plain_text ]};
     writes := [];
     stdout := [] |}.

(** A phase whose files list closes on a line of three tabs, as Xcode
    writes it. *)
Definition xcode_phase_block : str :=
  lit "97C146EA1CF9000F007C117D /* Sources */ = {" ++ [nl; tab; tab; tab]
  ++ lit "isa = PBXSourcesBuildPhase;" ++ [nl; tab; tab; tab]
  ++ lit "buildActionMask = 2147483647;" ++ [nl; tab; tab; tab]
  ++ lit "files = (" ++ [nl].
(** ** The matcher against the language *)

Section MatcherFacts.
Context {A : Type}.
Implicit Types (k : str -> option A) (s m rest : str).

Lemma lit_k_Some l k s r :
  lit_k l k s = Some r <-> exists rest, s = l ++ rest /\ k rest = Some r.
Proof.
  revert s. induction l as [|c l IH]; intros s; simpl.
  - split; [eauto | intros (rest & -> & H); exact H].
  - destruct s as [|d s].
    + split; [discriminate | intros (rest & H & _); discriminate].
    + unfold chr_eqb. destruct (N.eqb_spec c d) as [->|Hne].
      * rewrite IH. split; intros (rest & Hs & Hk); exists rest; split; auto; congruence.
      * split; [discriminate | intros (rest & H & _); congruence].
Qed.

Lemma rep_k_sound n f k s r :
  rep_k n f k s = Some r ->
  exists m rest, s = m ++ rest /\ lang_atom (Rep n f) m /\ k rest = Some r.
Proof.
  revert s. induction n as [|n IH]; intros s H; simpl in H.
  - exists [], s. repeat split; auto. constructor; auto.
  - destruct s as [|d s]; [discriminate|].
    destruct (f d) eqn:Hf; [|discriminate].
    destruct (IH _ H) as (m & rest & -> & Hl & Hk). inversion Hl; subst.
    exists (d :: m), rest. repeat split; auto. constructor; simpl; auto.
Qed.

Lemma rep_k_complete n f k m rest :
  length m = n -> Forall (fun c => f c = true) m ->
  rep_k n f k (m ++ rest) = k rest.
Proof.
  intros <- Hm. induction Hm as [|c m Hc Hm IH]; simpl; auto.
  rewrite Hc. exact IH.
Qed.

Lemma star_k_sound f k s r :
  star_k f k s = Some r ->
  exists m rest, s = m ++ rest /\ Forall (fun c => f c = true) m /\ k rest = Some r.
Proof.
  induction s as [|d s IH]; simpl; intros H.
  - exists [], []. auto.
  - destruct (f d) eqn:Hf.
    + destruct (star_k f k s) as [r'|] eqn:Hs.
      * injection H as ->. destruct (IH eq_refl) as (m & rest & -> & Hm & Hk).
        exists (d :: m), rest. auto.
      * exists [], (d :: s). auto.
    + exists [], (d :: s). auto.
Qed.

Lemma star_k_complete f k m rest :
  Forall (fun c => f c = true) m -> is_Some (k rest) ->
  is_Some (star_k f k (m ++ rest)).
Proof.
  intros Hm Hk. induction Hm as [|c m Hc Hm IH]; simpl.
  - destruct rest as [|d rest]; simpl; auto.
    destruct (f d); auto. destruct (star_k f k rest); eauto.
  - rewrite Hc. destruct IH as [r ->]. eauto.
Qed.

Lemma lazy_k_sound f k s r :
  lazy_k f k s = Some r ->
  exists m rest, s = m ++ rest /\ Forall (fun c => f c = true) m /\ k rest = Some r.
Proof.
  induction s as [|d s IH]; simpl; intros H.
  - destruct (k []) eqn:Hk; [|discriminate]. exists [], []. rewrite Hk. auto.
  - destruct (k (d :: s)) eqn:Hk.
    + exists [], (d :: s). rewrite Hk. auto.
    + destruct (f d) eqn:Hf; [|discriminate].
      destruct (IH H) as (m & rest & -> & Hm & Hk').
      exists (d :: m), rest. auto.
Qed.

Lemma lazy_k_complete f k m rest :
  Forall (fun c => f c = true) m -> is_Some (k rest) ->
  is_Some (lazy_k f k (m ++ rest)).
Proof.
  intros Hm Hk. induction Hm as [|c m Hc Hm IH]; simpl.
  - destruct Hk as [r Hk]. destruct rest; simpl; rewrite Hk; eauto.
  - destruct (k (c :: m ++ rest)); eauto. rewrite Hc. exact IH.
Qed.

Lemma atom_k_sound a k s r :
  atom_k a k s = Some r ->
  exists m rest, s = m ++ rest /\ lang_atom a m /\ k rest = Some r.
Proof.
  destruct a as [l|n f|f|f|f]; simpl; intros H.
  - apply lit_k_Some in H as (rest & -> & Hk). exists l, rest.
    repeat split; auto. constructor.
  - apply rep_k_sound; auto.
  - apply star_k_sound in H as (m & rest & -> & Hm & Hk).
    exists m, rest. repeat split; auto. constructor; auto.
  - unfold plus_k in H. destruct s as [|d s]; [discriminate|].
    destruct (f d) eqn:Hf; [|discriminate].
    apply star_k_sound in H as (m & rest & -> & Hm & Hk).
    exists (d :: m), rest. repeat split; auto. constructor; auto.
  - apply lazy_k_sound in H as (m & rest & -> & Hm & Hk).
    exists m, rest. repeat split; auto. constructor; auto.
Qed.

Lemma atom_k_complete a k m rest :
  lang_atom a m -> is_Some (k rest) -> is_Some (atom_k a k (m ++ rest)).
Proof.
  intros Hl Hk. destruct Hl as [l|n f m Hn Hm|f m Hm|f m Hne Hm|f m Hm]; simpl.
  - destruct Hk as [r Hk]. exists r. apply lit_k_Some. eauto.
  - rewrite rep_k_complete; auto.
  - apply star_k_complete; auto.
  - destruct Hm as [|c m Hc Hm]; [congruence|]. simpl. rewrite Hc.
    apply star_k_complete; auto.
  - apply lazy_k_complete; auto.
Qed.

Lemma atoms_k_sound p k s r :
  atoms_k p k s = Some r ->
  exists m rest, s = m ++ rest /\ lang p m /\ k rest = Some r.
Proof.
  revert k s r. induction p as [|a p IH]; simpl; intros k s r H.
  - exists [], s. auto.
  - apply atom_k_sound in H as (m1 & rest1 & -> & Ha & H).
    apply IH in H as (m2 & rest & -> & Hp & Hk).
    exists (m1 ++ m2), rest. rewrite <- app_assoc. repeat split; eauto.
Qed.

Lemma atoms_k_complete p k m rest :
  lang p m -> is_Some (k rest) -> is_Some (atoms_k p k (m ++ rest)).
Proof.
  revert k m rest. induction p as [|a p IH]; simpl; intros k m rest Hl Hk.
  - subst. exact Hk.
  - destruct Hl as (m1 & m2 & -> & Ha & Hp). rewrite <- app_assoc.
    apply atom_k_complete; auto.
Qed.
End MatcherFacts.

Lemma match_at_sound p s m1 m2 rest :
  match_at p s = Some (m1, m2, rest) ->
  s = m1 ++ m2 ++ rest /\ lang (group1 p) m1 /\ lang (group2 p) m2.
Proof.
  unfold match_at. intros H.
  destruct (atoms_k (group1 p) _ s) as [[s1 s2]|] eqn:Hm; [|discriminate].
  apply atoms_k_sound in Hm as (n1 & r1 & -> & Hl1 & Hm).
  apply atoms_k_sound in Hm as (n2 & r2 & -> & Hl2 & Hm).
  injection Hm as <- <-. injection H as <- <- <-.
  rewrite !length_app.
  replace (length n1 + (length n2 + length r2) - (length n2 + length r2))%nat
    with (length n1) by lia.
  replace (length n2 + length r2 - length r2)%nat with (length n2) by lia.
  rewrite !take_app_length. auto.
Qed.

Lemma match_at_complete p m1 m2 rest :
  lang (group1 p) m1 -> lang (group2 p) m2 ->
  is_Some (match_at p (m1 ++ m2 ++ rest)).
Proof.
  intros H1 H2. unfold match_at.
  destruct (atoms_k_complete (group1 p)
              (fun s1 => atoms_k (group2 p) (fun s2 => Some (s1, s2)) s1)
              m1 (m2 ++ rest) H1) as [[s1 s2] ->]; eauto.
  destruct (atoms_k_complete (group2 p) (fun s2 => Some (m2 ++ rest, s2))
              m2 rest H2) as [r Hr]; eauto.
Qed.

(** ** Facts about [re.sub] *)

Section Sub.
Variables (p : pattern) (repl : str -> str -> str).

Lemma sub_from_skip m c rest :
  sub_from p repl (m ++ c :: rest) (length m) = sub_from p repl (c :: rest) 0.
Proof. induction m as [|d m IH]; simpl; auto. Qed.

Lemma sub_nomatch_cons c s :
  match_at p (c :: s) = None -> sub p repl (c :: s) = c :: sub p repl s.
Proof. unfold sub. simpl. intros ->. reflexivity. Qed.

(** Where no match starts inside a prefix, the prefix is copied. *)
Lemma sub_skip_prefix pre s :
  (forall i, (i < length pre)%nat -> match_at p (drop i (pre ++ s)) = None) ->
  sub p repl (pre ++ s) = pre ++ sub p repl s.
Proof.
  induction pre as [|c pre IH]; intros H; [reflexivity|].
  simpl. rewrite sub_nomatch_cons.
  - f_equal. apply IH. intros i Hi. apply (H (S i)). simpl. lia.
  - apply (H O). simpl. lia.
Qed.

Lemma sub_id s :
  (forall i, match_at p (drop i s) = None) -> sub p repl s = s.
Proof.
  intros H. induction s as [|c s IH].
  - unfold sub. simpl. pose proof (H O) as H0. simpl in H0. rewrite H0.
    reflexivity.
  - rewrite sub_nomatch_cons by apply (H O). f_equal. apply IH.
    intros i. apply (H (S i)).
Qed.
End Sub.

(** A match that is not empty is replaced, and the scan resumes behind it. *)
Lemma sub_match p repl s m1 m2 c rest :
  match_at p s = Some (m1, m2, c :: rest) -> m1 ++ m2 <> [] ->
  sub p repl s = repl m1 m2 ++ sub p repl (c :: rest).
Proof.
  intros Hm Hne. destruct (match_at_sound _ _ _ _ _ Hm) as (Hs & _ & _).
  unfold sub. destruct s as [|d s].
  - destruct m1, m2; simpl in *; congruence.
  - simpl. rewrite Hm.
    destruct (length m1 + length m2)%nat as [|n] eqn:Hn.
    + destruct m1, m2; simpl in *; try lia; congruence.
    + f_equal. rewrite app_assoc in Hs.
      destruct (m1 ++ m2) as [|e m] eqn:Hm12; [congruence|].
      simpl in Hs. injection Hs as -> ->.
      assert (length m = n) as <-.
      { apply (f_equal length) in Hm12. rewrite length_app in Hm12.
        simpl in Hm12. lia. }
      apply sub_from_skip.
Qed.

Lemma sub_nil_match p repl m1 m2 r :
  match_at p [] = Some (m1, m2, r) -> sub p repl [] = repl m1 m2.
Proof. unfold sub. simpl. intros ->. reflexivity. Qed.

Lemma sub_empty_match p repl c s r :
  match_at p (c :: s) = Some ([], [], r) ->
  sub p repl (c :: s) = repl [] [] ++ c :: sub p repl s.
Proof. unfold sub. simpl. intros ->. reflexivity. Qed.

Lemma sub_match_end_nil p repl s m1 m2 :
  match_at p s = Some (m1, m2, []) -> m1 ++ m2 <> [] ->
  sub p repl s = repl m1 m2 ++ sub p repl [].
Proof.
  intros Hm Hne. destruct (match_at_sound _ _ _ _ _ Hm) as (Hs & _ & _).
  unfold sub. destruct s as [|d s].
  - destruct m1, m2; simpl in *; congruence.
  - simpl. rewrite Hm.
    destruct (length m1 + length m2)%nat as [|n] eqn:Hn.
    + destruct m1, m2; simpl in *; try lia; congruence.
    + f_equal. rewrite app_nil_r in Hs.
      destruct (m1 ++ m2) as [|e m] eqn:Hm12; [congruence|].
      injection Hs as -> ->.
      assert (length m = n) as <-.
      { apply (f_equal length) in Hm12. rewrite length_app in Hm12.
        simpl in Hm12. lia. }
      clear. induction m as [|c m IH]; simpl; auto.
Qed.

(** Every edit of [re.sub] whose replacement puts [ins] somewhere into the
    matched text is an insertion of [ins]. *)
Lemma sub_inserted_gen p repl ins (G1 G2 : str -> Prop) s :
  (forall m1 m2, lang (group1 p) m1 -> lang (group2 p) m2 ->
     exists a b, m1 ++ m2 = a ++ b /\ repl m1 m2 = a ++ ins ++ b /\ G1 a /\ G2 b) ->
  inserted ins G1 G2 s (sub p repl s).
Proof.
  intros Hrepl. remember (length s) as n eqn:Hn. revert s Hn.
  induction n as [n IH] using lt_wf_ind. intros s Hn.
  destruct (match_at p s) as [[[m1 m2] r]|] eqn:Hm.
  - pose proof (match_at_sound _ _ _ _ _ Hm) as (Hs & H1 & H2).
    destruct (Hrepl _ _ H1 H2) as (a & b & Hab & Hr & Ha & Hb).
    assert (Hs' : s = a ++ b ++ r) by now rewrite Hs, !app_assoc, Hab.
    destruct (m1 ++ m2) as [|e m] eqn:Hm12.
    + apply app_eq_nil in Hm12 as [-> ->]. simpl in Hs. subst r.
      symmetry in Hab. apply app_eq_nil in Hab as [-> ->].
      destruct s as [|c s].
      * rewrite (sub_nil_match _ _ _ _ _ Hm), Hr.
        apply (ins_here ins _ _ [] [] [] [] Ha Hb). constructor.
      * rewrite (sub_empty_match _ _ _ _ _ Hm), Hr.
        rewrite app_nil_l, app_nil_r.
        apply (ins_here ins _ _ [] [] (c :: s) (c :: sub p repl s) Ha Hb).
        constructor. apply (IH (length s)); simpl in *; auto; lia.
    + assert (Hne : m1 ++ m2 <> []) by congruence.
      assert (Hlen : (length r < n)%nat).
      { subst n. rewrite Hs, app_assoc, Hm12. simpl. rewrite length_app. simpl. lia. }
      assert (Hgoal : sub p repl s = a ++ ins ++ b ++ sub p repl r).
      { destruct r as [|d r].
        - rewrite (sub_match_end_nil _ _ _ _ _ Hm Hne), Hr.
          now rewrite <- !app_assoc.
        - rewrite (sub_match _ _ _ _ _ _ _ Hm Hne), Hr.
          now rewrite <- !app_assoc. }
      rewrite Hgoal. rewrite Hs' at 1.
      apply ins_here; auto. apply (IH (length r)); auto.
  - destruct s as [|c s].
    + unfold sub. simpl. rewrite Hm. constructor.
    + rewrite sub_nomatch_cons by auto. constructor.
      apply (IH (length s)); auto. subst n. simpl. lia.
Qed.

Lemma sub_inserted p ins s :
  inserted ins (lang (group1 p)) (lang (group2 p)) s
    (sub p (fun m1 m2 => m1 ++ ins ++ m2) s).
Proof. apply sub_inserted_gen. intros m1 m2 H1 H2. exists m1, m2. auto. Qed.

Lemma inserted_weaken ins (G1 G2 G1' G2' : str -> Prop) s t :
  (forall m, G1 m -> G1' m) -> (forall m, G2 m -> G2' m) ->
  inserted ins G1 G2 s t -> inserted ins G1' G2' s t.
Proof. intros H1 H2. induction 1; constructor; auto. Qed.

(** An insertion keeps every character of the input, in order. *)
Lemma inserted_sublist ins G1 G2 s t :
  inserted ins G1 G2 s t -> s `sublist_of` t.
Proof.
  induction 1 as [|c s t _ IH|m1 m2 s t _ _ _ IH].
  - constructor.
  - now constructor.
  - apply sublist_app; [reflexivity|]. apply sublist_inserts_l.
    apply sublist_app; [reflexivity|]. exact IH.
Qed.

Lemma inserted_same_length ins G1 G2 s t :
  inserted ins G1 G2 s t -> ins <> [] -> length t = length s -> t = s.
Proof.
  intros H Hne. induction H as [|c s t H IH|m1 m2 s t _ _ H IH]; auto.
  - simpl. intros [= Hl]. f_equal. auto.
  - pose proof (sublist_length _ _ (inserted_sublist _ _ _ _ _ H)) as Hl.
    rewrite !length_app. destruct ins; [congruence|]. simpl. lia.
Qed.

(** ** Occurrences of a literal *)

Lemma starts_with_prefix t s : starts_with t s = true <-> t `prefix_of` s.
Proof.
  revert s. induction t as [|c t IH]; intros s; simpl.
  - split; auto. intros _. apply prefix_nil.
  - destruct s as [|d s].
    + split; [discriminate|]. intros [k Hk]. discriminate.
    + unfold chr_eqb. destruct (N.eqb_spec c d) as [->|Hne]; simpl.
      * rewrite IH. split; [apply prefix_cons|]. apply prefix_cons_inv_2.
      * split; [discriminate|]. intros H. apply prefix_cons_inv_1 in H. congruence.
Qed.

Lemma occ_at_starts t s i : occ_at t s i <-> starts_with t (drop i s) = true.
Proof. unfold occ_at. now rewrite starts_with_prefix. Qed.

Lemma occ_at_lookup a s i j c :
  occ_at a s i -> a !! j = Some c -> s !! (i + j)%nat = Some c.
Proof.
  intros H Ha. rewrite <- lookup_drop. eapply prefix_lookup_Some; eauto.
Qed.

Lemma occ_at_length a s i :
  a <> [] -> occ_at a s i -> (i + length a <= length s)%nat.
Proof.
  intros Hne H. apply prefix_length in H. rewrite length_drop in H.
  destruct a; [congruence|]. simpl in *. lia.
Qed.

Lemma occ_at_app_l a u v i :
  (i + length a <= length u)%nat -> occ_at a (u ++ v) i <-> occ_at a u i.
Proof.
  intros Hl. unfold occ_at. rewrite drop_app_le by lia. split.
  - intros [k Hk].
    assert (a = take (length a) (drop i u)) as ->.
    { apply (f_equal (take (length a))) in Hk.
      rewrite take_app_le in Hk by (rewrite length_drop; lia).
      rewrite take_app_length in Hk. auto. }
    apply prefix_take.
  - intros H. now apply prefix_app_r.
Qed.

Lemma occ_at_app_r a u v i :
  (length u <= i)%nat -> occ_at a (u ++ v) i <-> occ_at a v (i - length u).
Proof. intros Hl. unfold occ_at. now rewrite drop_app_ge. Qed.

Lemma occ_at_here a u v : occ_at a (u ++ a ++ v) (length u).
Proof. unfold occ_at. rewrite drop_app_length. now apply prefix_app_r. Qed.

Lemma occ_at_shift a u v i : occ_at a v i <-> occ_at a (u ++ v) (length u + i).
Proof.
  rewrite occ_at_app_r by lia. now replace (length u + i - length u)%nat with i by lia.
Qed.

Lemma occ_at_prefix a b s i : a `prefix_of` b -> occ_at b s i -> occ_at a s i.
Proof. unfold occ_at. intros. etransitivity; eauto. Qed.

(** An occurrence that offsets into a longer literal. *)
Lemma occ_at_inner a b1 b2 s i :
  occ_at (b1 ++ a ++ b2) s i -> occ_at a s (i + length b1).
Proof.
  unfold occ_at. intros [k Hk]. exists (b2 ++ k).
  rewrite <- drop_drop, Hk, <- !app_assoc, drop_app_length.
  reflexivity.
Qed.

(** An occurrence across the border of [l] and [r] holds the last character
    of [l] and the first of [r]. *)
Lemma occ_cross a l r i :
  occ_at a (l ++ r) i -> (i < length l)%nat -> (length l < i + length a)%nat ->
  (exists c l', l = l' ++ [c] /\ c ∈ a) /\ (exists c r', r = c :: r' /\ c ∈ a).
Proof.
  intros H Hi Hl. split.
  - destruct (lookup_lt_is_Some_2 a (length l - 1 - i)) as [c Hc]; [lia|].
    pose proof (occ_at_lookup _ _ _ _ _ H Hc) as Hs.
    replace (i + (length l - 1 - i))%nat with (length l - 1)%nat in Hs by lia.
    rewrite lookup_app_l in Hs by lia.
    destruct l as [|d l _] using rev_ind; [simpl in Hi; lia|].
    rewrite length_app in Hs. simpl in Hs.
    replace (length l + 1 - 1)%nat with (length l + 0)%nat in Hs by lia.
    rewrite lookup_app_r in Hs by lia.
    replace (length l + 0 - length l)%nat with O in Hs by lia.
    injection Hs as ->. exists c, l. split; auto.
    eapply list_elem_of_lookup_2; eauto.
  - destruct (lookup_lt_is_Some_2 a (length l - i)) as [c Hc]; [lia|].
    pose proof (occ_at_lookup _ _ _ _ _ H Hc) as Hs.
    replace (i + (length l - i))%nat with (length l + 0)%nat in Hs by lia.
    rewrite lookup_app_r in Hs by lia.
    replace (length l + 0 - length l)%nat with O in Hs by lia.
    destruct r as [|d r]; [discriminate|]. injection Hs as ->.
    exists c, r. split; auto. eapply list_elem_of_lookup_2; eauto.
Qed.

(** Putting a block of lines (from a tab to a newline) into a buffer neither
    makes nor moves an occurrence of a literal that has no tab and no
    newline and is not inside the block. *)
Lemma occ_insert a x' u v i :
  a <> [] -> tab ∉ a -> nl ∉ a ->
  (forall j, ~ occ_at a (tab :: x' ++ [nl]) j) ->
  occ_at a (u ++ (tab :: x' ++ [nl]) ++ v) i ->
  ((i + length a <= length u)%nat /\ occ_at a (u ++ v) i)
  \/ ((length u + length (tab :: x' ++ [nl]) <= i)%nat
      /\ occ_at a (u ++ v) (i - length (tab :: x' ++ [nl]))).
Proof.
  intros Hne Htab Hnl Hin H. set (x := tab :: x' ++ [nl]) in *.
  destruct (decide (i + length a <= length u)%nat) as [H1|H1].
  { left. split; auto. apply occ_at_app_l; auto.
    apply (occ_at_app_l a u (x ++ v) i); auto. }
  destruct (decide (i < length u)%nat) as [H2|H2].
  { destruct (occ_cross _ _ _ _ H) as [_ (c & r' & Hr & Hc)]; [lia..|].
    unfold x in Hr. simpl in Hr. injection Hr as <- _. contradiction. }
  apply occ_at_app_r in H; [|lia].
  destruct (decide (i - length u + length a <= length x)%nat) as [H3|H3].
  { apply occ_at_app_l in H; auto. exfalso. eapply Hin; eauto. }
  destruct (decide (i - length u < length x)%nat) as [H4|H4].
  { destruct (occ_cross _ _ _ _ H) as [(c & l' & Hl & Hc) _]; [lia..|].
    unfold x in Hl. rewrite app_comm_cons in Hl.
    apply app_inj_tail in Hl as [_ <-]. contradiction. }
  right. split; [lia|].
  pose proof (proj1 (occ_at_app_r a x v (i - length u) ltac:(lia)) H) as H'.
  apply occ_at_app_r; [lia|].
  replace (i - length x - length u)%nat with (i - length u - length x)%nat by lia.
  exact H'.
Qed.

(** ** Counting *)

Lemma count_sub_zero t s :
  t <> [] -> count_sub t s = O <-> forall i, ~ occ_at t s i.
Proof.
  intros Hne. induction s as [|c s IH]; simpl.
  - split; auto. intros _ i H. apply occ_at_length in H; auto.
    destruct t; [congruence|]. simpl in H. lia.
  - split.
    + intros H i Hi. destruct (starts_with t (c :: s)) eqn:Hs; [simpl in H; lia|].
      destruct i as [|i].
      * apply occ_at_starts in Hi. simpl in Hi. congruence.
      * simpl in H. apply (proj1 IH H i). exact Hi.
    + intros H. destruct (starts_with t (c :: s)) eqn:Hs.
      * exfalso. apply (H O). apply occ_at_starts. exact Hs.
      * simpl. apply IH. intros i Hi. apply (H (S i)). exact Hi.
Qed.

(** Where no occurrence crosses the border, the count is the sum. *)
Lemma count_sub_app t u w :
  t <> [] ->
  (forall i, (i < length u)%nat -> occ_at t (u ++ w) i ->
             (i + length t <= length u)%nat) ->
  count_sub t (u ++ w) = (count_sub t u + count_sub t w)%nat.
Proof.
  intros Hne. induction u as [|c u IH]; intros H; [reflexivity|].
  simpl. rewrite IH.
  - assert (starts_with t (c :: u ++ w) = starts_with t (c :: u)) as ->; [|lia].
    destruct (starts_with t (c :: u)) eqn:Hs.
    + apply starts_with_prefix. apply starts_with_prefix in Hs.
      change (c :: u ++ w) with ((c :: u) ++ w). now apply prefix_app_r.
    + destruct (starts_with t (c :: u ++ w)) eqn:Hs'; auto.
      assert (Ho : occ_at t ((c :: u) ++ w) 0) by (apply occ_at_starts; exact Hs').
      pose proof (H O ltac:(simpl; lia) Ho) as Hl.
      apply occ_at_app_l in Ho; auto. apply occ_at_starts in Ho. simpl in *. congruence.
  - intros i Hi Ho. specialize (H (S i)). simpl in H. apply H in Ho; lia.
Qed.

(** ** Texts with open identifiers *)

Lemma concr_known s : Forall2 concr (known s) s.
Proof. induction s; constructor; simpl; auto. Qed.

Lemma concr_hex24 s : xcode_id s -> Forall2 concr hex24 s.
Proof.
  intros [Hl Hf]. unfold hex24. rewrite <- Hl. clear Hl.
  induction Hf; constructor; simpl; auto.
Qed.

Lemma starts_abs_sound t ax x b :
  Forall2 concr ax x -> starts_abs t ax = Some b -> starts_with t x = b.
Proof.
  intros Hc. revert t b. induction Hc as [|a c ax x Ha Hc IH]; intros t b.
  - destruct t; simpl; congruence.
  - destruct t as [|e t]; simpl; [congruence|].
    destruct a as [k|]; simpl in Ha.
    + subst c. destruct (chr_eqb e k); simpl; [apply IH | congruence].
    + destruct (is_upper_hex e) eqn:He.
      * destruct (starts_abs t ax) as [[|]|] eqn:Hs; try discriminate.
        intros [= <-]. rewrite (IH _ _ Hs). apply andb_false_r.
      * intros [= <-]. unfold chr_eqb. destruct (N.eqb_spec e c); [|reflexivity].
        congruence.
Qed.

Lemma count_abs_sound t ax x n :
  Forall2 concr ax x -> count_abs t ax = Some n -> count_sub t x = n.
Proof.
  intros Hc. revert n. induction Hc as [|a c ax x Ha Hc IH]; intros n.
  - simpl. congruence.
  - cbn [count_abs count_sub].
    destruct (starts_abs t (a :: ax)) as [b|] eqn:Hs; [|discriminate].
    destruct (count_abs t ax) as [m|] eqn:Hm; [|discriminate].
    intros [= <-]. rewrite (IH _ eq_refl).
    rewrite (starts_abs_sound t (a :: ax) (c :: x) b); auto.
Qed.

Lemma compat_abs_sound t ax x v :
  Forall2 concr ax x -> t `prefix_of` (x ++ v) -> compat_abs t ax = true.
Proof.
  intros Hc. revert t. induction Hc as [|a c ax x Ha Hc IH]; intros t Hp.
  - destruct t; reflexivity.
  - destruct t as [|e t]; [reflexivity|]. simpl in Hp.
    pose proof (prefix_cons_inv_1 _ _ _ _ Hp) as ->.
    apply prefix_cons_inv_2 in Hp. simpl.
    destruct a as [k|]; simpl in Ha.
    + subst. unfold chr_eqb. rewrite N.eqb_refl. simpl. auto.
    + rewrite Ha. simpl. auto.
Qed.

Lemma no_straddle_sound t ax x u v i :
  Forall2 concr ax x -> no_straddle t ax = true ->
  occ_at t (u ++ x ++ v) i -> (i < length u)%nat ->
  (i + length t <= length u)%nat.
Proof.
  intros Hc Hn Ho Hi.
  destruct (decide (i + length t <= length u)%nat) as [|Hl]; auto. exfalso.
  unfold no_straddle in Hn. rewrite forallb_forall in Hn.
  specialize (Hn (length u - i)%nat).
  rewrite (compat_abs_sound _ ax x v) in Hn; auto.
  - assert (In (length u - i)%nat (seq 1 (length t - 1))) as Hin
      by (apply in_seq; lia).
    apply Hn in Hin. discriminate.
  - unfold occ_at in Ho. destruct Ho as [k Hk].
    exists k. rewrite <- (take_drop (length u - i) t) in Hk.
    rewrite <- app_assoc in Hk.
    apply (f_equal (drop (length u - i))) in Hk.
    rewrite drop_drop in Hk.
    replace (i + (length u - i))%nat with (length u) in Hk by lia.
    rewrite drop_app_length in Hk.
    rewrite drop_app_length' in Hk; auto.
    rewrite length_take. lia.
Qed.

(** ** Blocks of entries in a buffer *)

Lemma chr_eqb_eq c d : chr_eqb c d = true <-> c = d.
Proof. unfold chr_eqb. apply N.eqb_eq. Qed.

Lemma plainb_spec t :
  plainb t = true -> t <> [] /\ (tab ∉ t) /\ (nl ∉ t).
Proof.
  unfold plainb. rewrite andb_true_iff, forallb_forall. intros [Hl Hf].
  split; [|split].
  - intros ->. discriminate.
  - intros Hin. apply list_elem_of_In, Hf in Hin.
    unfold chr_eqb in Hin. now rewrite N.eqb_refl in Hin.
  - intros Hin. apply list_elem_of_In, Hf in Hin.
    unfold chr_eqb in Hin. rewrite N.eqb_refl in Hin.
    now rewrite andb_false_r in Hin.
Qed.

Lemma is_known_concr c a d : is_known c a = true -> concr a d -> d = c.
Proof.
  destruct a as [k|]; simpl; [|discriminate].
  rewrite chr_eqb_eq. congruence.
Qed.

Lemma abs_block_sound ax x :
  Forall2 concr ax x -> abs_block ax = true -> exists x', x = tab :: x' ++ [nl].
Proof.
  intros Hc Hb. destruct Hc as [|a c ax x Ha Hc]; [discriminate|].
  simpl in Hb. apply andb_true_iff in Hb as [Ht Hl].
  rewrite (is_known_concr _ _ _ Ht Ha).
  destruct (last ax) as [b|] eqn:Hlast; [|discriminate].
  apply last_Some in Hlast as [ax' ->].
  apply Forall2_app_inv_l in Hc as (x' & y & Hx' & Hy & ->).
  inversion Hy as [|? d ? ? Hd Hnil]; subst. inversion Hnil; subst.
  rewrite (is_known_concr _ _ _ Hl Hd). eauto.
Qed.

Lemma inert_insert t ax x u v i :
  Forall2 concr ax x -> inert t ax = true ->
  occ_at t (u ++ x ++ v) i ->
  ((i + length t <= length u)%nat /\ occ_at t (u ++ v) i)
  \/ ((length u + length x <= i)%nat /\ occ_at t (u ++ v) (i - length x)).
Proof.
  intros Hc Hi. unfold inert in Hi.
  apply andb_true_iff in Hi as [Hi Hn]. apply andb_true_iff in Hi as [Hp Hb].
  destruct (plainb_spec _ Hp) as (Hne & Htab & Hnl).
  destruct (abs_block_sound _ _ Hc Hb) as [x' ->].
  destruct (count_abs t ax) as [[|n]|] eqn:Hcount; try discriminate.
  apply occ_insert; auto.
  apply count_sub_zero; auto. eapply count_abs_sound; eauto.
Qed.

(** The one occurrence of a literal stays the only one when an inert block
    is put in, behind it or (moving it) in front of it. *)
Lemma only_at_insert_after t ax x u v p :
  Forall2 concr ax x -> inert t ax = true ->
  only_at t (u ++ v) p -> (length u <= p)%nat ->
  only_at t (u ++ x ++ v) (p + length x).
Proof.
  intros Hc Hi Ho Hp j Hj.
  assert (Hne : t <> []).
  { unfold inert in Hi. rewrite !andb_true_iff in Hi.
    destruct Hi as [[Hpl _] _]. now apply plainb_spec in Hpl. }
  destruct (inert_insert _ _ _ _ _ _ Hc Hi Hj) as [[Hl H]|[Hl H]].
  - apply Ho in H. destruct t; [congruence|]. simpl in Hl. lia.
  - apply Ho in H. lia.
Qed.

Lemma only_at_insert_before t ax x u v p :
  Forall2 concr ax x -> inert t ax = true ->
  only_at t (u ++ v) p -> (p < length u)%nat ->
  only_at t (u ++ x ++ v) p.
Proof.
  intros Hc Hi Ho Hp j Hj.
  destruct (inert_insert _ _ _ _ _ _ Hc Hi Hj) as [[Hl H]|[Hl H]].
  - now apply Ho in H.
  - apply Ho in H. lia.
Qed.

(** The count of a plain literal grows by what the block holds. *)
Lemma count_insert t ax x ay y u v n :
  plainb t = true ->
  Forall2 concr ax x -> abs_block ax = true -> count_abs t ax = Some n ->
  Forall2 concr ay y -> no_straddle t ay = true ->
  count_sub t (u ++ x ++ y ++ v) = (count_sub t (u ++ y ++ v) + n)%nat.
Proof.
  intros Hp Hc Hb Hn Hy Hs.
  destruct (plainb_spec _ Hp) as (Hne & Htab & Hnl).
  destruct (abs_block_sound _ _ Hc Hb) as [x' Hx].
  rewrite (count_sub_app t u (x ++ y ++ v)); auto.
  - rewrite (count_sub_app t x (y ++ v)); auto.
    + rewrite (count_sub_app t u (y ++ v)); auto.
      * rewrite (count_abs_sound _ _ _ _ Hc Hn). lia.
      * intros i Hi Ho. eapply no_straddle_sound; eauto.
    + intros i Hi Ho.
      destruct (decide (i + length t <= length x)%nat) as [|Hl]; auto.
      destruct (occ_cross _ _ _ _ Ho) as [(c & l' & Hl' & Hc') _]; [lia..|].
      rewrite Hx, app_comm_cons in Hl'. apply app_inj_tail in Hl' as [_ <-].
      contradiction.
  - intros i Hi Ho.
    destruct (decide (i + length t <= length u)%nat) as [|Hl]; auto.
    destruct (occ_cross _ _ _ _ Ho) as [_ (c & r' & Hr & Hc')]; [lia..|].
    rewrite Hx in Hr. simpl in Hr. injection Hr as <- _. contradiction.
Qed.

(** *** The entries of the editors are such blocks *)

Section Entries.
Variables (file_ids build_ids : ids).
Hypothesis (Hf : xcode_ids file_ids) (Hb : xcode_ids build_ids).

Local Ltac concr_solve :=
  repeat (apply Forall2_app);
  first [apply concr_known | apply concr_hex24; (apply Hf || apply Hb)].

Lemma concr_build_entries :
  Forall2 concr abs_build_entries (build_entries build_ids file_ids).
Proof.
  unfold abs_build_entries, build_entries, abs_build_file_entry, build_file_entry.
  concr_solve.
Qed.

Lemma concr_reference_entries :
  Forall2 concr abs_reference_entries (reference_entries file_ids).
Proof.
  unfold abs_reference_entries, reference_entries, abs_file_reference_entry,
    file_reference_entry.
  concr_solve.
Qed.

Lemma concr_group_refs : Forall2 concr abs_group_refs (group_refs file_ids).
Proof.
  unfold abs_group_refs, group_refs, abs_group_ref, group_ref. concr_solve.
Qed.

Lemma concr_phase_refs : Forall2 concr abs_phase_refs (phase_refs build_ids).
Proof.
  unfold abs_phase_refs, phase_refs, abs_phase_ref, phase_ref. concr_solve.
Qed.
End Entries.

(** ** The checks are sound *)

Lemma only_atb_sound a s p : a <> [] -> only_atb a s p = true -> only_at a s p.
Proof.
  intros Hne H j Hj. unfold only_atb in H. rewrite forallb_forall in H.
  pose proof (occ_at_length _ _ _ Hne Hj) as Hl.
  specialize (H j). apply occ_at_starts in Hj. rewrite Hj in H.
  apply Nat.eqb_eq. apply H. apply in_seq. lia.
Qed.

Lemma in_lang_sound p m : in_lang p m = true -> lang p m.
Proof.
  unfold in_lang. destruct (atoms_k p _ m) as [u|] eqn:H; [|discriminate].
  intros _. apply atoms_k_sound in H as (m' & rest & -> & Hl & Hk).
  destruct rest; [|discriminate]. now rewrite app_nil_r.
Qed.

Lemma atom_avoids_sound c a m :
  atom_avoids c a = true -> lang_atom a m -> c ∉ m.
Proof.
  intros Ha Hl Hin.
  assert (Hall : forall f, negb (f c) = true ->
                           Forall (fun d => f d = true) m -> False).
  { intros f Hf HF. rewrite Forall_forall in HF. apply HF in Hin.
    rewrite Hin in Hf. discriminate. }
  destruct Hl; simpl in Ha; eauto.
  apply negb_true_iff in Ha. apply list_elem_of_In in Hin.
  assert (existsb (chr_eqb c) l = true); [|congruence].
  apply existsb_exists. exists c. split; auto. now apply chr_eqb_eq.
Qed.

Lemma atoms_avoid_sound c p m : atoms_avoid c p = true -> lang p m -> c ∉ m.
Proof.
  revert m. induction p as [|a p IH]; simpl; intros m Ha Hl.
  - subst. apply not_elem_of_nil.
  - apply andb_true_iff in Ha as [Ha Hp].
    destruct Hl as (m1 & m2 & -> & H1 & H2).
    rewrite elem_of_app. intros [H|H].
    + eapply atom_avoids_sound; eauto.
    + eapply IH; eauto.
Qed.

(** ** The editors one by one *)

Lemma lang_lit1 l m : lang [Lit l] m <-> m = l.
Proof.
  simpl. split.
  - intros (m1 & m2 & -> & H1 & ->). inversion H1; subst. apply app_nil_r.
  - intros ->. exists l, []. rewrite app_nil_r. repeat split. constructor.
Qed.

Lemma match_at_first_literal p l g s :
  group1 p = Lit l :: g -> is_Some (match_at p s) -> l `prefix_of` s.
Proof.
  intros Hg [[[m1 m2] r] Hm]. apply match_at_sound in Hm as (-> & H1 & _).
  rewrite Hg in H1. destruct H1 as (a & b & -> & Ha & _). inversion Ha; subst.
  rewrite <- app_assoc. now apply prefix_app_r.
Qed.

Lemma occurs_search p s :
  occurs p s <-> exists i, is_Some (match_at p (drop i s)).
Proof.
  split.
  - intros (pre & m1 & m2 & post & -> & H1 & H2). exists (length pre).
    rewrite drop_app_length. now apply match_at_complete.
  - intros (i & [[m1 m2] r] & Hm). apply match_at_sound in Hm as (Hs & H1 & H2).
    exists (take i s), m1, m2, r. rewrite <- Hs, take_drop. auto.
Qed.

Lemma sub_no_occurrence p repl s : ~ occurs p s -> sub p repl s = s.
Proof.
  intros H. apply sub_id. intros i.
  destruct (match_at p (drop i s)) eqn:Hm; auto.
  exfalso. apply H, occurs_search. eauto.
Qed.

Lemma occurs_literal a s : occurs (literal_pattern a) s <-> substring a s.
Proof.
  unfold occurs, substring, literal_pattern. simpl. split.
  - intros (pre & m1 & m2 & post & -> & H1 & ->). apply lang_lit1 in H1 as ->.
    exists pre, post. reflexivity.
  - intros (pre & post & ->). exists pre, a, [], post.
    repeat split; auto. now apply lang_lit1.
Qed.

(** A substitution that inserts a text and leaves the buffer as it was has
    found no match. *)
Lemma sub_fixed_no_match p repl ins s :
  (forall m1 m2, lang (group1 p) m1 -> lang (group2 p) m2 ->
     exists a b, m1 ++ m2 = a ++ b /\ repl m1 m2 = a ++ ins ++ b) ->
  ins <> [] -> sub p repl s = s -> forall i, match_at p (drop i s) = None.
Proof.
  intros Hrepl Hne.
  assert (Hge : forall r, (length r <= length (sub p repl r))%nat).
  { intros r. apply sublist_length.
    apply (inserted_sublist ins (fun _ => True) (fun _ => True)).
    apply sub_inserted_gen. intros m1 m2 H1 H2.
    destruct (Hrepl _ _ H1 H2) as (a & b & ? & ?). exists a, b. auto. }
  assert (Hins : (0 < length ins)%nat) by (destruct ins; [congruence|simpl; lia]).
  assert (Hhead : forall s, sub p repl s = s -> match_at p s = None).
  { clear - Hrepl Hge Hins. intros s Hfix.
    destruct (match_at p s) as [[[m1 m2] r]|] eqn:Hm; auto. exfalso.
    pose proof (match_at_sound _ _ _ _ _ Hm) as (Hs & H1 & H2).
    destruct (Hrepl _ _ H1 H2) as (a & b & Hab & Hr).
    apply (f_equal length) in Hab. rewrite !length_app in Hab.
    pose proof (f_equal length Hs) as Hls. rewrite !length_app in Hls.
    apply (f_equal length) in Hfix.
    destruct (m1 ++ m2) as [|e m] eqn:Hm12.
    - apply app_eq_nil in Hm12 as [-> ->]. simpl in Hs. subst r.
      destruct s as [|c s].
      + rewrite (sub_nil_match _ _ _ _ _ Hm), Hr in Hfix.
        rewrite !length_app in Hfix. simpl in *. lia.
      + rewrite (sub_empty_match _ _ _ _ _ Hm), Hr in Hfix.
        rewrite !length_app in Hfix. simpl in Hfix. pose proof (Hge s). simpl in *. lia.
    - assert (Hne : m1 ++ m2 <> []) by congruence.
      assert (Hsub : sub p repl s = repl m1 m2 ++ sub p repl r).
      { destruct r.
        - apply sub_match_end_nil; auto.
        - apply sub_match; auto. }
      rewrite Hsub, Hr in Hfix. rewrite !length_app in Hfix.
      pose proof (Hge r). simpl in *. lia. }
  clear Hne. induction s as [|c s IH]; intros Hfix i.
  - rewrite drop_nil. auto.
  - pose proof (Hhead _ Hfix) as Hm. destruct i as [|i]; [exact Hm|].
    simpl. apply IH.
    rewrite sub_nomatch_cons in Hfix by auto. congruence.
Qed.

Lemma lit_k_app {A} l (k : str -> option A) s : lit_k l k (l ++ s) = k s.
Proof.
  induction l as [|c l IH]; simpl; auto.
  unfold chr_eqb. now rewrite N.eqb_refl.
Qed.

(** When the text at hand can be split into the two groups in one way
    only, that is the match. *)
Lemma match_at_unique_result p m1 m2 rest :
  lang (group1 p) m1 -> lang (group2 p) m2 ->
  (forall n1 n2 r, lang (group1 p) n1 -> lang (group2 p) n2 ->
     m1 ++ m2 ++ rest = n1 ++ n2 ++ r -> n1 = m1 /\ n2 = m2) ->
  match_at p (m1 ++ m2 ++ rest) = Some (m1, m2, rest).
Proof.
  intros H1 H2 Hu.
  destruct (match_at_complete p m1 m2 rest H1 H2) as [[[n1 n2] r] Hm].
  rewrite Hm. pose proof (match_at_sound _ _ _ _ _ Hm) as (Hs & Hn1 & Hn2).
  destruct (Hu _ _ _ Hn1 Hn2 Hs) as [-> ->].
  apply app_inv_head in Hs. apply app_inv_head in Hs. now subst.
Qed.

Lemma match_at_literal a rest :
  match_at (literal_pattern a) (a ++ rest) = Some (a, [], rest).
Proof.
  rewrite <- (app_nil_l rest) at 1. apply match_at_unique_result.
  - now apply lang_lit1.
  - reflexivity.
  - intros n1 n2 r Hn1 Hn2 _. apply lang_lit1 in Hn1. simpl in Hn2. auto.
Qed.

Lemma match_at_primary rest :
  match_at runner_group_pattern (header_line ++ group_closing ++ rest)
  = Some (header_line, group_closing, rest).
Proof.
  apply match_at_unique_result; try (now apply lang_lit1).
  intros n1 n2 r Hn1 Hn2 _. apply lang_lit1 in Hn1, Hn2. auto.
Qed.

Lemma first_char_split (c : N) x y r r' :
  c ∉ x -> c ∉ y -> x ++ c :: r = y ++ c :: r' -> x = y /\ r = r'.
Proof.
  revert y. induction x as [|d x IH]; intros [|e y] Hx Hy H; simpl in H.
  - injection H as ->. auto.
  - injection H as <- _. exfalso. apply Hy. constructor.
  - injection H as -> _. exfalso. apply Hx. constructor.
  - injection H as -> H. apply not_elem_of_cons in Hx as [_ Hx].
    apply not_elem_of_cons in Hy as [_ Hy].
    destruct (IH _ Hx Hy H) as [-> ->]. auto.
Qed.

Lemma match_at_sources blk rest :
  lang (group1 sources_phase_pattern) blk ->
  match_at sources_phase_pattern (blk ++ phase_closing ++ rest)
  = Some (blk, phase_closing, rest).
Proof.
  intros Hb. apply match_at_unique_result; auto; [now apply lang_lit1|].
  intros n1 n2 r Hn1 Hn2 Hs. apply lang_lit1 in Hn2. subst n2. split; auto.
  assert (Ha : forall m, lang (group1 sources_phase_pattern) m ->
                         41 ∉ m ++ [tab; tab]).
  { intros m Hm. rewrite elem_of_app. intros [H|H].
    - revert H. eapply atoms_avoid_sound; eauto. reflexivity.
    - rewrite !elem_of_cons, elem_of_nil in H.
      destruct H as [H|[H|H]]; [discriminate H..|destruct H]. }
  change phase_closing with ([tab; tab] ++ 41 :: [59]) in Hs.
  rewrite <- !app_assoc in Hs. rewrite !(app_assoc _ [tab; tab]) in Hs.
  apply first_char_split in Hs as [Hs _]; auto.
  now apply app_inv_tail in Hs.
Qed.

(** *** The two section editors *)

Lemma has_backslash_app a b :
  has_backslash (a ++ b) = has_backslash a || has_backslash b.
Proof. apply existsb_app. Qed.

Lemma template_safe_reference i :
  template_safe i -> has_backslash (reference_entries i) = false.
Proof.
  intros [Hp Hs]. unfold reference_entries, file_reference_entry.
  rewrite !has_backslash_app, Hp, Hs. reflexivity.
Qed.

Lemma template_safe_build b f :
  template_safe b -> template_safe f ->
  has_backslash (build_entries b f) = false.
Proof.
  intros [Hp Hs] [Hp' Hs']. unfold build_entries, build_file_entry.
  rewrite !has_backslash_app, Hp, Hs, Hp', Hs'. reflexivity.
Qed.

Lemma xcode_id_safe s : xcode_id s -> has_backslash s = false.
Proof.
  intros [_ H]. induction H as [|c s Hc _ IH]; [reflexivity|].
  unfold has_backslash in *. cbn [existsb]. rewrite IH, orb_false_r.
  apply not_true_is_false. rewrite chr_eqb_eq. intros <-.
  vm_compute in Hc. discriminate.
Qed.

Lemma xcode_ids_safe i : xcode_ids i -> template_safe i.
Proof. intros [H1 H2]. split; now apply xcode_id_safe. Qed.

Lemma sub_template_Some anchor text content out :
  sub_template anchor text content = Some out ->
  out = sub (literal_pattern anchor) (fun m1 _ => text ++ m1) content.
Proof.
  unfold sub_template. destruct (has_backslash text); [discriminate|].
  now intros [= <-].
Qed.

Lemma sub_template_safe anchor text content :
  has_backslash text = false ->
  sub_template anchor text content
  = Some (sub (literal_pattern anchor) (fun m1 _ => text ++ m1) content).
Proof. unfold sub_template. now intros ->. Qed.

Lemma literal_repl anchor text m1 m2 :
  lang (group1 (literal_pattern anchor)) m1 ->
  lang (group2 (literal_pattern anchor)) m2 ->
  exists a b, m1 ++ m2 = a ++ b /\ text ++ m1 = a ++ text ++ b
              /\ a = [] /\ b = anchor.
Proof.
  intros H1 H2. apply lang_lit1 in H1. simpl in H2. subst.
  exists [], anchor. rewrite app_nil_r. auto.
Qed.

Lemma sub_literal_inserted anchor text s :
  inserted text (eq []) (eq anchor) s
    (sub (literal_pattern anchor) (fun m1 _ => text ++ m1) s).
Proof.
  apply sub_inserted_gen. intros m1 m2 H1 H2.
  destruct (literal_repl anchor text m1 m2 H1 H2) as (a & b & ? & ? & ? & ?).
  exists a, b. auto.
Qed.

(** The first occurrence of the anchor gets the text, and the scan goes on
    behind it. *)
Lemma sub_literal_first anchor text u v :
  anchor <> [] ->
  (forall i, (i < length u)%nat -> ~ occ_at anchor (u ++ anchor ++ v) i) ->
  sub (literal_pattern anchor) (fun m1 _ => text ++ m1) (u ++ anchor ++ v)
  = u ++ text ++ anchor
      ++ sub (literal_pattern anchor) (fun m1 _ => text ++ m1) v.
Proof.
  intros Hne Hu. rewrite sub_skip_prefix.
  - f_equal. destruct v as [|c v].
    + rewrite (sub_match_end_nil _ _ _ anchor []).
      * now rewrite <- app_assoc.
      * apply match_at_literal.
      * now rewrite app_nil_r.
    + rewrite (sub_match _ _ _ anchor [] c v).
      * now rewrite <- app_assoc.
      * apply match_at_literal.
      * now rewrite app_nil_r.
  - intros i Hi. destruct (match_at _ _) eqn:Hm; auto. exfalso.
    apply (Hu i Hi).
    apply (match_at_first_literal (literal_pattern anchor) anchor [] _ eq_refl).
    rewrite Hm. eauto.
Qed.

(** *** The group editor and the phase editor *)

Lemma add_to_runner_group_eq content file_ids :
  add_to_runner_group content file_ids
  = let result := sub runner_group_pattern (group_replacer file_ids) content in
    if decide (result = content)
    then sub alt_pattern (group_replacer file_ids) result
    else result.
Proof. reflexivity. Qed.

Lemma group_replacer_refs file_ids m1 m2 :
  group_replacer file_ids m1 m2 = m1 ++ group_refs file_ids ++ m2.
Proof. unfold group_replacer, group_refs. now rewrite <- app_assoc. Qed.

Lemma sources_replacer_refs build_ids m1 m2 :
  sources_replacer build_ids m1 m2 = m1 ++ phase_refs build_ids ++ m2.
Proof. unfold sources_replacer, phase_refs. now rewrite <- app_assoc. Qed.

Lemma sub_ext p f g s : (forall a b, f a b = g a b) -> sub p f s = sub p g s.
Proof.
  intros H. unfold sub. generalize O. induction s as [|c s IH]; intros n; simpl.
  - destruct (match_at p []) as [[[? ?] ?]|]; auto.
  - destruct n; auto.
    destruct (match_at p (c :: s)) as [[[m1 m2] r]|]; [|now rewrite IH].
    rewrite H. destruct (length m1 + length m2)%nat; now rewrite IH.
Qed.

Lemma group_sub_inserted p file_ids s :
  inserted (group_refs file_ids) (lang (group1 p)) (lang (group2 p)) s
    (sub p (group_replacer file_ids) s).
Proof.
  rewrite (sub_ext _ _ (fun m1 m2 => m1 ++ group_refs file_ids ++ m2)).
  - apply sub_inserted.
  - apply group_replacer_refs.
Qed.

Lemma add_to_sources_build_phase_eq content build_ids :
  add_to_sources_build_phase content build_ids
  = sub sources_phase_pattern (sources_replacer build_ids) content.
Proof. reflexivity. Qed.

Lemma sources_sub_inserted build_ids s :
  inserted (phase_refs build_ids) (lang (group1 sources_phase_pattern))
    (eq phase_closing) s (add_to_sources_build_phase s build_ids).
Proof.
  rewrite add_to_sources_build_phase_eq.
  rewrite (sub_ext _ _ (fun m1 m2 => m1 ++ phase_refs build_ids ++ m2)).
  - eapply inserted_weaken; [| |apply sub_inserted]; auto.
    intros m H. apply lang_lit1 in H. auto.
  - apply sources_replacer_refs.
Qed.

Lemma group_refs_nonempty file_ids : group_refs file_ids <> [].
Proof. unfold group_refs, group_ref. discriminate. Qed.

Lemma group_repl_shape p file_ids m1 m2 :
  lang (group1 p) m1 -> lang (group2 p) m2 ->
  exists a b, m1 ++ m2 = a ++ b
              /\ group_replacer file_ids m1 m2 = a ++ group_refs file_ids ++ b.
Proof. intros _ _. exists m1, m2. split; auto. apply group_replacer_refs. Qed.

(** The primary pattern changes the buffer exactly when it occurs. *)
Lemma primary_fixed content file_ids :
  sub runner_group_pattern (group_replacer file_ids) content = content
  <-> ~ occurs runner_group_pattern content.
Proof.
  split.
  - intros Hfix Hocc. apply occurs_search in Hocc as [i [x Hx]].
    rewrite (sub_fixed_no_match _ _ (group_refs file_ids) _
               (group_repl_shape _ file_ids) (group_refs_nonempty _) Hfix) in Hx.
    discriminate.
  - apply sub_no_occurrence.
Qed.

Lemma group_inserted content file_ids :
  inserted (group_refs file_ids)
    (fun m => m = header_line \/ lang (group1 alt_pattern) m)
    (fun m => m = group_closing \/ m = alt_closing)
    content (add_to_runner_group content file_ids).
Proof.
  rewrite add_to_runner_group_eq. cbv zeta.
  destruct (decide (sub runner_group_pattern (group_replacer file_ids) content
                    = content)) as [->|_].
  - eapply inserted_weaken; [| |apply group_sub_inserted]; auto.
    intros m H. apply lang_lit1 in H. auto.
  - eapply inserted_weaken; [| |apply group_sub_inserted].
    + intros m H. apply lang_lit1 in H. auto.
    + intros m H. apply lang_lit1 in H. auto.
Qed.

Lemma not_substring_count a s :
  a <> [] -> count_sub a s = O -> ~ substring a s.
Proof.
  intros Hne Hc (pre & post & ->).
  apply (proj1 (count_sub_zero a _ Hne) Hc (length pre)). apply occ_at_here.
Qed.

Lemma not_occurs_search p s : searchb p s = false -> ~ occurs p s.
Proof.
  intros Hs Hocc. apply occurs_search in Hocc as [i [x Hx]].
  assert (searchb p s = true); [|congruence].
  unfold searchb. apply existsb_exists.
  destruct (decide (i <= length s)%nat) as [Hi|Hi].
  - exists i. rewrite Hx. split; auto. apply in_seq. lia.
  - exists (length s). rewrite drop_all.
    rewrite drop_ge in Hx by lia. rewrite Hx. split; auto. apply in_seq. lia.
Qed.

Lemma occurs_searchb p s : searchb p s = true -> occurs p s.
Proof.
  unfold searchb. rewrite existsb_exists. intros (i & _ & Hi).
  apply occurs_search. exists i. destruct (match_at p (drop i s)); eauto.
  discriminate.
Qed.

(** ** The claims about the single editors *)

(** C2.  An editor whose anchor pattern is nowhere in the buffer returns the
    buffer as it got it, and returns normally: the two section editors when
    their end marker is not a substring, the group editor when neither its
    primary nor its fallback pattern has a match, the phase editor when its
    pattern has none.  (Identifiers without a backslash, as
    [generate_xcode_id] makes them, keep the replacement template of the
    section editors well-formed.) *)
Theorem absent_anchor_unchanged content file_ids build_ids :
  template_safe file_ids -> template_safe build_ids ->
  (~ substring file_reference_anchor content ->
     add_pbx_file_references content file_ids = Some content)
  /\ (~ substring build_file_anchor content ->
        add_pbx_build_files content build_ids file_ids = Some content)
  /\ (~ occurs runner_group_pattern content -> ~ occurs alt_pattern content ->
        add_to_runner_group content file_ids = content)
  /\ (~ occurs sources_phase_pattern content ->
        add_to_sources_build_phase content build_ids = content).
Proof.
  intros Hf Hb. repeat split.
  - intros Hn. unfold add_pbx_file_references.
    rewrite sub_template_safe by (now apply template_safe_reference).
    f_equal. apply sub_no_occurrence. now rewrite occurs_literal.
  - intros Hn. unfold add_pbx_build_files.
    rewrite sub_template_safe by (now apply template_safe_build).
    f_equal. apply sub_no_occurrence. now rewrite occurs_literal.
  - intros H1 H2. rewrite add_to_runner_group_eq. cbv zeta.
    rewrite (sub_no_occurrence _ _ _ H1).
    destruct (decide (content = content)); [|congruence].
    now apply sub_no_occurrence.
  - intros H. rewrite add_to_sources_build_phase_eq. now apply sub_no_occurrence.
Qed.

Lemma absent_anchor_unchanged_witness :
  add_pbx_file_references plain_text sample_file_ids = Some plain_text
  /\ add_pbx_build_files plain_text sample_build_ids sample_file_ids
     = Some plain_text
  /\ add_to_runner_group plain_text sample_file_ids = plain_text
  /\ add_to_sources_build_phase plain_text sample_build_ids = plain_text.
Proof.
  destruct (absent_anchor_unchanged plain_text sample_file_ids sample_build_ids)
    as (H1 & H2 & H3 & H4).
  - split; vm_compute; reflexivity.
  - split; vm_compute; reflexivity.
  - split; [|split; [|split]].
    + apply H1. apply not_substring_count; [discriminate|vm_compute; reflexivity].
    + apply H2. apply not_substring_count; [discriminate|vm_compute; reflexivity].
    + apply H3; apply not_occurs_search; vm_compute; reflexivity.
    + apply H4; apply not_occurs_search; vm_compute; reflexivity.
Defined.

Lemma group_closing_prefix m :
  m = group_closing \/ m = alt_closing -> group_closing `prefix_of` m.
Proof.
  intros [->| ->]; [reflexivity|]. exists (drop 5 alt_closing). reflexivity.
Qed.



(** C10.  Every editor only adds text: its result is the input with copies
    of its entry lines put in, so the input is a subsequence of the result
    and the result is at least as long. *)
Theorem editors_additive content file_ids build_ids :
  (forall out, add_pbx_file_references content file_ids = Some out ->
     with_insertions (reference_entries file_ids) content out
     /\ content `sublist_of` out /\ (length content <= length out)%nat)
  /\ (forall out, add_pbx_build_files content build_ids file_ids = Some out ->
        with_insertions (build_entries build_ids file_ids) content out
        /\ content `sublist_of` out /\ (length content <= length out)%nat)
  /\ (with_insertions (group_refs file_ids) content
        (add_to_runner_group content file_ids)
      /\ content `sublist_of` add_to_runner_group content file_ids
      /\ (length content <= length (add_to_runner_group content file_ids))%nat)
  /\ (with_insertions (phase_refs build_ids) content
        (add_to_sources_build_phase content build_ids)
      /\ content `sublist_of` add_to_sources_build_phase content build_ids
      /\ (length content
          <= length (add_to_sources_build_phase content build_ids))%nat).
Proof.
  assert (Hall : forall ins s t, with_insertions ins s t ->
            with_insertions ins s t /\ s `sublist_of` t
            /\ (length s <= length t)%nat).
  { intros ins s t H. split; auto.
    pose proof (inserted_sublist _ _ _ _ _ H) as Hs. split; auto.
    now apply sublist_length. }
  split; [|split; [|split]].
  - intros out H. apply sub_template_Some in H as ->. apply Hall.
    eapply inserted_weaken; [| |apply sub_literal_inserted]; simpl; auto.
  - intros out H. apply sub_template_Some in H as ->. apply Hall.
    eapply inserted_weaken; [| |apply sub_literal_inserted]; simpl; auto.
  - apply Hall. eapply inserted_weaken; [| |apply group_inserted]; simpl; auto.
  - apply Hall. eapply inserted_weaken; [| |apply sources_sub_inserted];
      simpl; auto.
Qed.

Lemma editors_additive_witness :
  minimal_manifest
    `sublist_of` default [] (add_pbx_file_references minimal_manifest
                               sample_file_ids)
  /\ minimal_manifest
       `sublist_of` default [] (add_pbx_build_files minimal_manifest
                                  sample_build_ids sample_file_ids).
Proof.
  destruct (editors_additive minimal_manifest sample_file_ids sample_build_ids)
    as (H1 & H2 & _).
  split; [apply H1 | apply H2]; vm_compute; reflexivity.
Defined.

(** The first match is replaced and the scan goes on behind it. *)
Lemma sub_first p repl u m1 m2 v :
  (forall i, (i < length u)%nat ->
             match_at p (drop i (u ++ m1 ++ m2 ++ v)) = None) ->
  match_at p (m1 ++ m2 ++ v) = Some (m1, m2, v) -> m1 ++ m2 <> [] ->
  sub p repl (u ++ m1 ++ m2 ++ v) = u ++ repl m1 m2 ++ sub p repl v.
Proof.
  intros Hu Hm Hne. rewrite sub_skip_prefix by exact Hu. f_equal.
  destruct v as [|c v].
  - now apply sub_match_end_nil.
  - now apply sub_match.
Qed.

Lemma first_literal_no_match p l g s (n : nat) :
  group1 p = Lit l :: g ->
  (forall i, (i < n)%nat -> ~ occ_at l s i) ->
  forall i, (i < n)%nat -> match_at p (drop i s) = None.
Proof.
  intros Hg Hu i Hi. destruct (match_at p (drop i s)) eqn:Hm; auto.
  exfalso. apply (Hu i Hi). apply (match_at_first_literal p l g _ Hg).
  rewrite Hm. eauto.
Qed.

Lemma lang_cons a p m1 m2 :
  lang_atom a m1 -> lang p m2 -> lang (a :: p) (m1 ++ m2).
Proof. intros H1 H2. exists m1, m2. auto. Qed.

Lemma child_entry_lang token label :
  xcode_id token -> label <> [] -> 42 ∉ label ->
  lang (group1 alt_pattern) (child_entry token label).
Proof.
  intros [Hl Hh] Hne Hstar. unfold child_entry, alt_pattern. simpl group1.
  apply lang_cons; [constructor|].
  apply lang_cons; [constructor; auto|].
  apply lang_cons; [constructor|].
  apply lang_cons.
  - constructor; auto. apply Forall_forall. intros c Hc.
    unfold not_star. apply negb_true_iff, N.eqb_neq. intros ->.
    now apply Hstar.
  - now apply lang_lit1.
Qed.

(** The texts of the first group of the secondary pattern are the child
    entries. *)
Lemma alt_group1_shape m :
  lang (group1 alt_pattern) m ->
  exists h lab, m = child_entry h lab /\ length h = 24%nat /\ 42 ∉ lab.
Proof.
  intros (m1 & r1 & -> & H1 & m2 & r2 & -> & H2 & m3 & r3 & -> & H3
          & m4 & r4 & -> & H4 & m5 & r5 & -> & H5 & ->).
  inversion H1; subst. inversion H2; subst. inversion H3; subst.
  inversion H4; subst. inversion H5; subst.
  exists m2, m4. rewrite app_nil_r. repeat split; auto.
  intros Hin. match goal with
              | HF : Forall _ m4 |- _ => rewrite Forall_forall in HF;
                                         apply HF in Hin
              end.
  discriminate.
Qed.

Lemma child_entry_inj h lab h' lab' r r' :
  length h = length h' -> 42 ∉ lab -> 42 ∉ lab' ->
  child_entry h lab ++ r = child_entry h' lab' ++ r' ->
  h = h' /\ lab = lab'.
Proof.
  intros Hl Hs Hs' H. unfold child_entry in H. rewrite <- !app_assoc in H.
  apply app_inv_head in H. apply app_inj_1 in H as [-> H]; auto.
  apply app_inv_head in H. split; auto.
  change (lit " */,") with ([32] ++ 42 :: [47; 44]) in H.
  rewrite <- !app_assoc in H. rewrite !(app_assoc _ [32]) in H.
  apply first_char_split in H as [H _].
  - now apply app_inv_tail in H.
  - rewrite elem_of_app, list_elem_of_singleton. intros [?|?]; [auto|discriminate].
  - rewrite elem_of_app, list_elem_of_singleton. intros [?|?]; [auto|discriminate].
Qed.


Lemma match_at_child_entry token label v :
  xcode_id token -> label <> [] -> 42 ∉ label ->
  match_at alt_pattern (child_entry token label ++ alt_closing ++ v)
  = Some (child_entry token label, alt_closing, v).
Proof.
  intros Ht Hne Hstar. apply match_at_unique_result.
  - now apply child_entry_lang.
  - now apply lang_lit1.
  - intros n1 n2 r Hn1 Hn2 Heq. apply lang_lit1 in Hn2. subst n2.
    split; auto.
    destruct (alt_group1_shape _ Hn1) as (h & lab & -> & Hh & Hlab).
    rewrite !app_assoc in Heq. rewrite <- !(app_assoc _ alt_closing) in Heq.
    apply child_entry_inj in Heq as [-> ->]; auto.
    destruct Ht as [-> _]. auto.
Qed.

Lemma match_starts_None p s i :
  ~ match_starts p s i -> match_at p (drop i s) = None.
Proof.
  intros Hn. destruct (match_at p (drop i s)) as [[[m1 m2] r]|] eqn:Hm; auto.
  exfalso. apply Hn. apply match_at_sound in Hm as (Hs & H1 & H2).
  exists m1, m2, r. auto.
Qed.

(** C6.  When the primary pattern leaves the buffer as it was, the group
    editor runs the secondary pattern on it.  That pattern matches a child
    entry (four tabs, a 24-digit upper-case hexadecimal token, a label in a
    comment with no star in it) that stands right before the closing
    delimiter with the path and sourceTree lines of the group; where it
    matches, the two listing entries go between that child entry and the
    closing delimiter (at the first match, and the scan goes on behind
    it), and they are the very entries the primary pattern puts in; where
    it does not match either, the buffer comes back unchanged. *)
Theorem runner_group_fallback content file_ids :
  sub runner_group_pattern (group_replacer file_ids) content = content ->
  add_to_runner_group content file_ids
  = sub alt_pattern (group_replacer file_ids) content
  /\ inserted (group_refs file_ids) (lang (group1 alt_pattern)) (eq alt_closing)
       content (add_to_runner_group content file_ids)
  /\ (forall pre token label post,
        xcode_id token -> label <> [] -> 42 ∉ label ->
        content = pre ++ child_entry token label ++ alt_closing ++ post ->
        occurs alt_pattern content)
  /\ (forall pre token label post,
        xcode_id token -> label <> [] -> 42 ∉ label ->
        content = pre ++ child_entry token label ++ alt_closing ++ post ->
        (forall i, (i < length pre)%nat -> ~ match_starts alt_pattern content i) ->
        add_to_runner_group content file_ids
        = pre ++ child_entry token label ++ group_refs file_ids ++ alt_closing
            ++ sub alt_pattern (group_replacer file_ids) post)
  /\ (occurs alt_pattern content ->
        (length content < length (add_to_runner_group content file_ids))%nat)
  /\ (~ occurs alt_pattern content ->
        add_to_runner_group content file_ids = content)
  /\ (forall other,
        inserted (group_refs file_ids) (eq header_line) (eq group_closing) other
          (sub runner_group_pattern (group_replacer file_ids) other)).
Proof.
  intros Hfix.
  assert (Heq : add_to_runner_group content file_ids
                = sub alt_pattern (group_replacer file_ids) content).
  { rewrite add_to_runner_group_eq. cbv zeta. rewrite Hfix.
    destruct (decide (content = content)); [reflexivity|congruence]. }
  assert (Hins : inserted (group_refs file_ids) (lang (group1 alt_pattern))
                   (eq alt_closing) content
                   (add_to_runner_group content file_ids)).
  { rewrite Heq. eapply inserted_weaken; [| |apply group_sub_inserted]; auto.
    intros m H. apply lang_lit1 in H. auto. }
  repeat apply conj; auto.
  - intros pre token label post Ht Hl Hs ->.
    exists pre, (child_entry token label), alt_closing, post.
    repeat split; [now apply child_entry_lang | now apply lang_lit1].
  - intros pre token label post Ht Hl Hs Hc Hno. rewrite Heq, Hc.
    rewrite sub_first.
    + rewrite group_replacer_refs. now rewrite <- !app_assoc.
    + intros i Hi. rewrite <- Hc. apply match_starts_None. auto.
    + now apply match_at_child_entry.
    + unfold child_entry. discriminate.
  - intros Hocc.
    pose proof (sublist_length _ _ (inserted_sublist _ _ _ _ _ Hins)) as Hle.
    destruct (decide (length (add_to_runner_group content file_ids)
                      = length content)) as [Hl|Hl]; [|lia].
    exfalso. apply (inserted_same_length _ _ _ _ _ Hins) in Hl;
      [|apply group_refs_nonempty].
    rewrite Heq in Hl. apply occurs_search in Hocc as [i [x Hx]].
    rewrite (sub_fixed_no_match _ _ (group_refs file_ids) _
               (group_repl_shape _ file_ids) (group_refs_nonempty _) Hl) in Hx.
    discriminate.
  - intros Hn. rewrite Heq. now apply sub_no_occurrence.
  - intros other. eapply inserted_weaken; [| |apply group_sub_inserted].
    + intros m H. apply lang_lit1 in H. auto.
    + intros m H. apply lang_lit1 in H. auto.
Qed.

Lemma runner_group_fallback_witness :
  add_to_runner_group fallback_manifest sample_file_ids
  = sub alt_pattern (group_replacer sample_file_ids) fallback_manifest
  /\ (length fallback_manifest
      < length (add_to_runner_group fallback_manifest sample_file_ids))%nat.
Proof.
  destruct (runner_group_fallback fallback_manifest sample_file_ids)
    as (H1 & _ & _ & _ & H4 & _).
  - vm_compute. reflexivity.
  - split; [exact H1|]. apply H4. apply occurs_searchb. vm_compute. reflexivity.
Defined.

(** C3, as the code has it.  [re.sub] is called without a count, so an
    editor edits every match it finds from left to right: the first
    occurrence of its anchor gets the insertion, and the rest of the buffer
    behind that occurrence is edited in the same way. *)
Theorem every_occurrence_edited u v blk file_ids build_ids :
  template_safe file_ids -> template_safe build_ids ->
  ((forall i, (i < length u)%nat ->
              ~ occ_at file_reference_anchor (u ++ file_reference_anchor ++ v) i) ->
   exists out,
     add_pbx_file_references v file_ids = Some out
     /\ add_pbx_file_references (u ++ file_reference_anchor ++ v) file_ids
        = Some (u ++ reference_entries file_ids ++ file_reference_anchor ++ out))
  /\ ((forall i, (i < length u)%nat ->
                 ~ occ_at build_file_anchor (u ++ build_file_anchor ++ v) i) ->
      exists out,
        add_pbx_build_files v build_ids file_ids = Some out
        /\ add_pbx_build_files (u ++ build_file_anchor ++ v) build_ids file_ids
           = Some (u ++ build_entries build_ids file_ids ++ build_file_anchor
                     ++ out))
  /\ ((forall i, (i < length u)%nat ->
                 ~ occ_at header_line (u ++ header_line ++ group_closing ++ v) i) ->
      add_to_runner_group (u ++ header_line ++ group_closing ++ v) file_ids
      = u ++ header_line ++ group_refs file_ids ++ group_closing
          ++ sub runner_group_pattern (group_replacer file_ids) v)
  /\ (lang (group1 sources_phase_pattern) blk ->
      (forall i, (i < length u)%nat ->
                 ~ occ_at phase_key (u ++ blk ++ phase_closing ++ v) i) ->
      add_to_sources_build_phase (u ++ blk ++ phase_closing ++ v) build_ids
      = u ++ blk ++ phase_refs build_ids ++ phase_closing
          ++ add_to_sources_build_phase v build_ids).
Proof.
  intros Hf Hb. repeat apply conj.
  - intros Hu. eexists. split.
    + unfold add_pbx_file_references.
      apply sub_template_safe. now apply template_safe_reference.
    + unfold add_pbx_file_references.
      rewrite sub_template_safe by (now apply template_safe_reference).
      f_equal. apply sub_literal_first; auto; discriminate.
  - intros Hu. eexists. split.
    + unfold add_pbx_build_files.
      apply sub_template_safe. now apply template_safe_build.
    + unfold add_pbx_build_files.
      rewrite sub_template_safe by (now apply template_safe_build).
      f_equal. apply sub_literal_first; auto; discriminate.
  - intros Hu. rewrite add_to_runner_group_eq. cbv zeta.
    rewrite (sub_first _ _ u header_line group_closing v).
    + rewrite group_replacer_refs.
      destruct (decide _) as [He|_]; [|now rewrite <- !app_assoc].
      apply (f_equal length) in He. rewrite !length_app in He.
      pose proof (sublist_length _ _
                    (inserted_sublist _ _ _ _ _
                       (group_sub_inserted runner_group_pattern file_ids v))).
      unfold group_refs, group_ref in He. rewrite !length_app in He.
      simpl in He. lia.
    + apply (first_literal_no_match _ header_line []); auto.
    + apply match_at_primary.
    + discriminate.
  - intros Hblk Hu. rewrite !add_to_sources_build_phase_eq.
    rewrite (sub_first _ _ u blk phase_closing v).
    + rewrite sources_replacer_refs. now rewrite <- !app_assoc.
    + eapply (first_literal_no_match _ phase_key); eauto; reflexivity.
    + now apply match_at_sources.
    + intros H. apply app_eq_nil in H as [_ H]. discriminate.
Qed.

Lemma no_occ_before_check a s n :
  forallb (fun i => negb (starts_with a (drop i s))) (seq 0 n) = true ->
  forall i, (i < n)%nat -> ~ occ_at a s i.
Proof.
  rewrite forallb_forall. intros H i Hi Ho. apply occ_at_starts in Ho.
  specialize (H i). rewrite Ho in H. discriminate H. apply in_seq. lia.
Qed.

Lemma every_occurrence_edited_witness :
  exists out,
    add_pbx_file_references ([nl] ++ twice_anchor) sample_file_ids = Some out
    /\ add_pbx_file_references
         (plain_text ++ file_reference_anchor ++ [nl] ++ twice_anchor)
         sample_file_ids
       = Some (plain_text ++ reference_entries sample_file_ids
                 ++ file_reference_anchor ++ out).
Proof.
  destruct (every_occurrence_edited plain_text ([nl] ++ twice_anchor)
              sample_phase_block sample_file_ids sample_build_ids)
    as (H1 & _).
  - split; vm_compute; reflexivity.
  - split; vm_compute; reflexivity.
  - apply H1. apply no_occ_before_check. vm_compute. reflexivity.
Defined.

(** C3, as the claim has it, fails: with the end marker written twice, both
    occurrences get the two records, which is not the edit of the first
    occurrence only. *)
Lemma first_occurrence_only_counterexample :
  count_sub file_reference_anchor twice_anchor = 2%nat
  /\ add_pbx_file_references twice_anchor sample_file_ids
     = Some (reference_entries sample_file_ids ++ file_reference_anchor ++ [nl]
             ++ reference_entries sample_file_ids ++ file_reference_anchor
             ++ [nl])
  /\ ~ edits_first_only file_reference_anchor
         (reference_entries sample_file_ids) twice_anchor
         (reference_entries sample_file_ids ++ file_reference_anchor ++ [nl]
          ++ reference_entries sample_file_ids ++ file_reference_anchor
          ++ [nl]).
Proof.
  split; [vm_compute; reflexivity|]. split; [vm_compute; reflexivity|].
  intros (u & v & Hs & Hu & Ht).
  destruct u as [|c u].
  - rewrite app_nil_l in Hs. unfold twice_anchor in Hs.
    apply app_inv_head in Hs. subst v.
    apply (f_equal length) in Ht. vm_compute in Ht. discriminate.
  - apply (Hu O); [simpl; lia|]. apply occ_at_starts. vm_compute. reflexivity.
Qed.

(** ** The pipeline on a manifest given by its parts *)

Lemma assemble_build x eb er eg es :
  assemble x eb er eg es = head_build x eb ++ tail_build x er eg es.
Proof.
  unfold assemble, head_build, tail_build, tail_refs, tail_group, tail_phase.
  now rewrite <- !app_assoc.
Qed.

Lemma assemble_refs x eb er eg es :
  assemble x eb er eg es = head_refs x eb er ++ tail_refs x eg es.
Proof.
  unfold assemble, head_refs, head_build, tail_refs, tail_group, tail_phase.
  now rewrite <- !app_assoc.
Qed.

Lemma assemble_group x eb er eg es :
  assemble x eb er eg es = head_group x eb er eg ++ tail_group x es.
Proof.
  unfold assemble, head_group, head_refs, head_build, tail_group, tail_phase.
  now rewrite <- !app_assoc.
Qed.

Lemma assemble_phase x eb er eg es :
  assemble x eb er eg es = head_phase x eb er eg es ++ tail_phase x.
Proof.
  unfold assemble, head_phase, head_group, head_refs, head_build, tail_phase.
  now rewrite <- !app_assoc.
Qed.

Lemma head_build_app x eb ins : head_build x (eb ++ ins) = head_build x eb ++ ins.
Proof. unfold head_build. now rewrite app_assoc. Qed.

Lemma head_refs_app x eb er ins :
  head_refs x eb (er ++ ins) = head_refs x eb er ++ ins.
Proof. unfold head_refs. now rewrite <- !app_assoc. Qed.

Lemma head_group_app x eb er eg ins :
  head_group x eb er (eg ++ ins) = head_group x eb er eg ++ ins.
Proof. unfold head_group. now rewrite <- !app_assoc. Qed.

Lemma head_phase_app x eb er eg es ins :
  head_phase x eb er eg (es ++ ins) = head_phase x eb er eg es ++ ins.
Proof. unfold head_phase. now rewrite <- !app_assoc. Qed.

Lemma anchor_lengths :
  length build_file_anchor = 30%nat /\ length file_reference_anchor = 34%nat
  /\ length header_line = 57%nat /\ length group_closing = 5%nat
  /\ length phase_closing = 4%nat /\ length header_key = 56%nat
  /\ length phase_key = 42%nat /\ length runner_key = 14%nat.
Proof. vm_compute. repeat split. Qed.

Lemma only_at_after t ax x u v p p' :
  Forall2 concr ax x -> inert t ax = true ->
  only_at t (u ++ v) p -> (length u <= p)%nat -> p' = (p + length x)%nat ->
  only_at t (u ++ x ++ v) p'.
Proof. intros Hc Hi Ho Hl ->. eapply only_at_insert_after; eauto. Qed.

Lemma only_at_before t ax x u v p :
  Forall2 concr ax x -> inert t ax = true ->
  only_at t (u ++ v) p -> (p < length u)%nat ->
  only_at t (u ++ x ++ v) p.
Proof. intros. eapply only_at_insert_before; eauto. Qed.

(** A pattern with a single match in the buffer: the match is replaced and
    the rest is copied. *)
Lemma sub_only p repl u m1 m2 v :
  (forall i, is_Some (match_at p (drop i (u ++ m1 ++ m2 ++ v))) ->
             i = length u) ->
  match_at p (m1 ++ m2 ++ v) = Some (m1, m2, v) -> m1 ++ m2 <> [] ->
  sub p repl (u ++ m1 ++ m2 ++ v) = u ++ repl m1 m2 ++ v.
Proof.
  intros Hu Hm Hne. rewrite sub_first; auto.
  - do 2 f_equal. apply sub_id. intros i.
    destruct (match_at p (drop i v)) eqn:Hv; auto. exfalso.
    assert (Hd : drop (length u + length (m1 ++ m2) + i) (u ++ m1 ++ m2 ++ v)
                 = drop i v).
    { rewrite <- Nat.add_assoc, <- drop_drop, drop_app_length.
      rewrite app_assoc, <- drop_drop, drop_app_length. reflexivity. }
    assert (Hs : is_Some (match_at p (drop (length u + length (m1 ++ m2) + i)
                                        (u ++ m1 ++ m2 ++ v))))
      by (rewrite Hd, Hv; eauto).
    apply Hu in Hs. destruct (m1 ++ m2); [congruence|]. simpl in Hs. lia.
  - intros i Hi. destruct (match_at p (drop i _)) eqn:Hv; auto. exfalso.
    assert (i = length u) by (apply Hu; rewrite Hv; eauto). lia.
Qed.

(** The same when a literal in front of the pattern occurs only once. *)
Lemma sub_only_key p repl key l g u m1 m2 v :
  group1 p = Lit l :: g -> key `prefix_of` l ->
  only_at key (u ++ m1 ++ m2 ++ v) (length u) ->
  match_at p (m1 ++ m2 ++ v) = Some (m1, m2, v) -> m1 ++ m2 <> [] ->
  sub p repl (u ++ m1 ++ m2 ++ v) = u ++ repl m1 m2 ++ v.
Proof.
  intros Hg Hk Ho Hm Hne. apply sub_only; auto.
  intros i Hi. apply Ho. apply (occ_at_prefix key l); auto.
  apply (match_at_first_literal p l g _ Hg Hi).
Qed.


Lemma sub_literal_only anchor text u v :
  anchor <> [] -> only_at anchor (u ++ anchor ++ v) (length u) ->
  sub (literal_pattern anchor) (fun m1 _ => text ++ m1) (u ++ anchor ++ v)
  = u ++ text ++ anchor ++ v.
Proof.
  intros Hne Ho.
  rewrite (sub_only_key (literal_pattern anchor) _ anchor anchor [] u anchor [] v);
    auto.
  - now rewrite <- app_assoc.
  - apply match_at_literal.
  - now rewrite app_nil_r.
Qed.

Lemma abs_avoids_sound c ax x :
  Forall2 concr ax x -> abs_avoids c ax = true -> c ∉ x.
Proof.
  unfold abs_avoids. rewrite andb_true_iff. intros Hc [Hh Hk].
  induction Hc as [|a d ax x Ha Hc IH]; [apply not_elem_of_nil|].
  simpl in Hk. apply andb_true_iff in Hk as [Hk1 Hk2].
  apply not_elem_of_cons. split; auto.
  intros ->. destruct a as [k|]; simpl in *.
  - subst. unfold chr_eqb in Hk1. now rewrite N.eqb_refl in Hk1.
  - rewrite Ha in Hh. discriminate.
Qed.

Lemma lang_lazy_extend p f m e :
  lang (p ++ [LazyStar f]) m -> Forall (fun c => f c = true) e ->
  lang (p ++ [LazyStar f]) (m ++ e).
Proof.
  revert m. induction p as [|a p IH]; intros m Hm He.
  - destruct Hm as (m1 & m2 & -> & H1 & H2). simpl in H2. subst m2.
    inversion H1; subst. exists (m1 ++ e), []. rewrite !app_nil_r.
    repeat split. constructor. now apply Forall_app.
  - destruct Hm as (m1 & m2 & -> & H1 & H2). rewrite <- app_assoc.
    apply lang_cons; auto.
Qed.

Lemma phase_block_extend blk e :
  lang (group1 sources_phase_pattern) blk -> 41 ∉ e ->
  lang (group1 sources_phase_pattern) (blk ++ e).
Proof.
  intros Hb He.
  change (group1 sources_phase_pattern)
    with ([Lit (lit "97C146EA1CF9000F007C117D /* Sources */ = {");
           Star is_space; Lit (lit "isa = PBXSourcesBuildPhase;");
           Star is_space; Lit (lit "buildActionMask = 2147483647;");
           Star is_space; Lit (lit "files = ("); Star is_space]
          ++ [LazyStar not_rparen]) in *.
  apply lang_lazy_extend; auto. apply Forall_forall. intros c Hc.
  unfold not_rparen. apply negb_true_iff, N.eqb_neq. intros ->. auto.
Qed.

Lemma phase_block_key blk :
  lang (group1 sources_phase_pattern) blk -> phase_key `prefix_of` blk.
Proof.
  intros (m1 & m2 & -> & H1 & _). inversion H1; subst. now apply prefix_app_r.
Qed.

Lemma assemble_header x eb er eg es :
  assemble x eb er eg es
  = (head_refs x eb er ++ file_reference_anchor ++ before_group x)
    ++ header_line ++ eg ++ tail_group x es.
Proof.
  unfold assemble, head_refs, head_build, tail_group, tail_phase.
  now rewrite <- !app_assoc.
Qed.

Lemma assemble_block x eb er eg es :
  assemble x eb er eg es
  = (head_group x eb er eg ++ group_closing ++ before_phase x)
    ++ (phase_block x ++ es) ++ phase_closing ++ after_phase x.
Proof.
  unfold assemble, head_group, head_refs, head_build.
  now rewrite <- !app_assoc.
Qed.


Lemma starts_with_drop a b s :
  starts_with (a ++ b) s = true -> starts_with b (drop (length a) s) = true.
Proof.
  rewrite !starts_with_prefix. intros [k ->].
  rewrite <- app_assoc, drop_app_length. now apply prefix_app_r.
Qed.

Lemma count_sub_drop b n s : (count_sub b (drop n s) <= count_sub b s)%nat.
Proof.
  revert s. induction n as [|n IH]; intros s; [now rewrite drop_0|].
  destruct s as [|c s]; [simpl; lia|]. simpl drop.
  specialize (IH s). cbn [count_sub]. lia.
Qed.

(** A literal occurs at least as often as a longer one that ends in it. *)
Lemma count_sub_suffix_le a b s :
  b <> [] -> (count_sub (a ++ b) s <= count_sub b s)%nat.
Proof.
  intros Hne.
  enough (H : forall s, (count_sub (a ++ b) s
                         <= count_sub b (drop (length a) s))%nat).
  { etransitivity; [apply H | apply count_sub_drop]. }
  clear s. intros s. induction s as [|c s IH]; [simpl; lia|].
  destruct a as [|y a]; [simpl; lia|].
  cbn [count_sub]. simpl length. simpl drop.
  destruct (starts_with ((y :: a) ++ b) (c :: s)) eqn:Hs.
  - pose proof (starts_with_drop (y :: a) b (c :: s) Hs) as Hd.
    simpl in Hd. destruct (drop (length a) s) as [|z r] eqn:Hr.
    + destruct b; [congruence|discriminate].
    + assert (drop (S (length a)) s = r) as Hr'.
      { replace (S (length a)) with (length a + 1)%nat by lia.
        rewrite <- drop_drop, Hr. reflexivity. }
      simpl length in IH. rewrite Hr' in IH.
      cbn [count_sub]. rewrite Hd. lia.
  - simpl length in IH. etransitivity; [apply IH|].
    replace (S (length a)) with (length a + 1)%nat by lia.
    rewrite <- drop_drop. apply count_sub_drop.
Qed.

Section Steps.
Variables (x : parts) (file_ids build_ids : ids).
Hypotheses (Hf : xcode_ids file_ids) (Hb : xcode_ids build_ids).

Local Ltac lens :=
  unfold head_phase, head_group, head_refs, head_build;
  rewrite ?length_app;
  destruct anchor_lengths as (? & ? & ? & ? & ? & ? & ? & ?);
  lia.

Local Ltac inert_block :=
  first [ apply (concr_build_entries file_ids build_ids Hf Hb)
        | apply (concr_reference_entries file_ids Hf)
        | apply (concr_group_refs file_ids Hf)
        | apply (concr_phase_refs build_ids Hb) ].

Local Ltac after H :=
  eapply only_at_after; [inert_block | vm_compute; reflexivity | exact H
                        | lens | lens].

Local Ltac before H :=
  eapply only_at_before; [inert_block | vm_compute; reflexivity | exact H
                         | lens].

(** The anchors stay single under each of the four insertions. *)
Lemma anchored_build eb er eg es :
  anchored x eb er eg es ->
  anchored x (eb ++ build_entries build_ids file_ids) er eg es.
Proof.
  unfold anchored. rewrite !assemble_build, head_build_app, <- app_assoc.
  intros (H1 & H2 & H3 & H4). repeat split.
  - after H1.
  - after H2.
  - after H3.
  - after H4.
Qed.

Lemma anchored_refs eb er eg es :
  anchored x eb er eg es ->
  anchored x eb (er ++ reference_entries file_ids) eg es.
Proof.
  unfold anchored. rewrite !assemble_refs, head_refs_app, <- app_assoc.
  intros (H1 & H2 & H3 & H4). repeat split.
  - before H1.
  - after H2.
  - after H3.
  - after H4.
Qed.

Lemma anchored_group eb er eg es :
  anchored x eb er eg es ->
  anchored x eb er (eg ++ group_refs file_ids) es.
Proof.
  unfold anchored. rewrite !assemble_group, head_group_app, <- app_assoc.
  intros (H1 & H2 & H3 & H4). repeat split.
  - before H1.
  - before H2.
  - before H3.
  - after H4.
Qed.

Lemma anchored_phase eb er eg es :
  (0 < length (phase_block x))%nat ->
  anchored x eb er eg es ->
  anchored x eb er eg (es ++ phase_refs build_ids).
Proof.
  unfold anchored. rewrite !assemble_phase, head_phase_app, <- app_assoc.
  intros Hblk (H1 & H2 & H3 & H4). repeat split.
  - before H1.
  - before H2.
  - before H3.
  - before H4.
Qed.

(** What each editor does to such a manifest. *)
Lemma step_build eb er eg es :
  anchored x eb er eg es ->
  add_pbx_build_files (assemble x eb er eg es) build_ids file_ids
  = Some (assemble x (eb ++ build_entries build_ids file_ids) er eg es).
Proof.
  intros (H & _). unfold add_pbx_build_files. cbv zeta.
  fold (build_entries build_ids file_ids).
  rewrite sub_template_safe
    by (apply template_safe_build; now apply xcode_ids_safe).
  f_equal. rewrite !assemble_build, head_build_app in *.
  unfold tail_build in *. rewrite sub_literal_only;
    [now rewrite <- !app_assoc | discriminate | auto].
Qed.

Lemma step_refs eb er eg es :
  anchored x eb er eg es ->
  add_pbx_file_references (assemble x eb er eg es) file_ids
  = Some (assemble x eb (er ++ reference_entries file_ids) eg es).
Proof.
  intros (_ & H & _). unfold add_pbx_file_references. cbv zeta.
  fold (reference_entries file_ids).
  rewrite sub_template_safe
    by (apply template_safe_reference; now apply xcode_ids_safe).
  f_equal. rewrite !assemble_refs, head_refs_app in *.
  unfold tail_refs in *. rewrite sub_literal_only;
    [now rewrite <- !app_assoc | discriminate | auto].
Qed.

Lemma step_group_first eb er es :
  anchored x eb er [] es ->
  add_to_runner_group (assemble x eb er [] es) file_ids
  = assemble x eb er (group_refs file_ids) es.
Proof.
  intros (_ & _ & H & _). rewrite add_to_runner_group_eq. cbv zeta.
  rewrite !assemble_header in *. unfold tail_group in *.
  rewrite app_nil_l in *.
  rewrite (sub_only_key runner_group_pattern _ header_key header_line []
             _ header_line group_closing);
    [ | reflexivity | exists [nl]; reflexivity | exact H
      | apply match_at_primary | discriminate ].
  rewrite group_replacer_refs.
  destruct (decide _) as [He|_]; [|now rewrite <- !app_assoc].
  apply (f_equal length) in He. rewrite !length_app in He.
  unfold group_refs, group_ref in He. rewrite !length_app in He.
  simpl in He. lia.
Qed.

Lemma step_phase eb er eg es :
  anchored x eb er eg es ->
  lang (group1 sources_phase_pattern) (phase_block x ++ es) ->
  add_to_sources_build_phase (assemble x eb er eg es) build_ids
  = assemble x eb er eg (es ++ phase_refs build_ids).
Proof.
  intros (_ & _ & _ & H) Hl. rewrite add_to_sources_build_phase_eq.
  rewrite !assemble_block in *.
  rewrite (sub_only_key sources_phase_pattern _ phase_key phase_key
             (tail (group1 sources_phase_pattern))
             _ (phase_block x ++ es) phase_closing);
    [ | reflexivity | reflexivity | exact H | now apply match_at_sources
      | intros He; apply app_eq_nil in He as [_ He]; discriminate ].
  rewrite sources_replacer_refs. now rewrite <- !app_assoc.
Qed.

Lemma phase_refs_no_paren : 41 ∉ phase_refs build_ids.
Proof.
  apply (abs_avoids_sound _ abs_phase_refs).
  - apply (concr_phase_refs build_ids Hb).
  - vm_compute. reflexivity.
Qed.


(** How often a literal with no tab and no newline occurs once the four
    blocks are in. *)
Lemma count_assemble t nb nr ng ns eb er eg es :
  plainb t = true ->
  no_straddle t (known build_file_anchor) = true ->
  no_straddle t (known file_reference_anchor) = true ->
  no_straddle t (known group_closing) = true ->
  no_straddle t (known phase_closing) = true ->
  count_abs t abs_build_entries = Some nb ->
  count_abs t abs_reference_entries = Some nr ->
  count_abs t abs_group_refs = Some ng ->
  count_abs t abs_phase_refs = Some ns ->
  count_sub t (assemble x (eb ++ build_entries build_ids file_ids)
                 (er ++ reference_entries file_ids)
                 (eg ++ group_refs file_ids) (es ++ phase_refs build_ids))
  = (count_sub t (assemble x eb er eg es) + nb + nr + ng + ns)%nat.
Proof.
  intros Hp H1 H2 H3 H4 Cb Cr Cg Cs.
  rewrite assemble_phase, head_phase_app, <- app_assoc. unfold tail_phase.
  rewrite (count_insert t abs_phase_refs _ (known phase_closing) _ _ _ ns);
    auto; [|inert_block|apply concr_known].
  change (phase_closing ++ after_phase x) with (tail_phase x).
  rewrite <- assemble_phase.
  rewrite assemble_group, head_group_app, <- app_assoc. unfold tail_group.
  rewrite (count_insert t abs_group_refs _ (known group_closing) _ _ _ ng);
    auto; [|inert_block|apply concr_known].
  change (group_closing ++ before_phase x ++ phase_block x ++ es ++ tail_phase x)
    with (tail_group x es).
  rewrite <- assemble_group.
  rewrite assemble_refs, head_refs_app, <- app_assoc. unfold tail_refs.
  rewrite (count_insert t abs_reference_entries _ (known file_reference_anchor)
             _ _ _ nr); auto; [|inert_block|apply concr_known].
  change (file_reference_anchor ++ before_group x ++ header_line ++ eg
          ++ tail_group x es) with (tail_refs x eg es).
  rewrite <- assemble_refs.
  rewrite assemble_build, head_build_app, <- app_assoc. unfold tail_build.
  rewrite (count_insert t abs_build_entries _ (known build_file_anchor)
             _ _ _ nb); auto; [|inert_block|apply concr_known].
  change (build_file_anchor ++ before_refs x ++ er ++ tail_refs x eg es)
    with (tail_build x er eg es).
  rewrite <- assemble_build. lia.
Qed.

Lemma adds_assemble eb er eg es :
  adds_of_each 2 (assemble x eb er eg es)
    (assemble x (eb ++ build_entries build_ids file_ids)
       (er ++ reference_entries file_ids)
       (eg ++ group_refs file_ids) (es ++ phase_refs build_ids)).
Proof.
  unfold adds_of_each, reference_records, build_records,
    group_listing_entries, phase_listing_entries.
  rewrite (count_assemble (lit "isa = PBXFileReference;") 0 2 0 0)
    by (vm_compute; reflexivity).
  rewrite (count_assemble (lit "isa = PBXBuildFile;") 2 0 0 0)
    by (vm_compute; reflexivity).
  rewrite (count_assemble (lit " */,") 0 0 2 2) by (vm_compute; reflexivity).
  rewrite (count_assemble (lit " in Sources */,") 0 0 0 2)
    by (vm_compute; reflexivity).
  assert (Hne : lit " */," <> []) by discriminate.
  pose proof (count_sub_suffix_le (lit " in Sources") (lit " */,")
                (assemble x eb er eg es) Hne) as Hle.
  change (lit " in Sources" ++ lit " */,") with (lit " in Sources */,") in Hle.
  repeat split; lia.
Qed.

End Steps.

(** ** The claims about the whole pipeline *)

Lemma xcode_id_check s :
  Nat.eqb (length s) 24 && forallb is_upper_hex s = true -> xcode_id s.
Proof.
  rewrite andb_true_iff, Nat.eqb_eq, forallb_forall. intros [Hl Hf].
  split; auto. apply Forall_forall. intros c Hc. apply Hf.
  now apply list_elem_of_In.
Qed.

Lemma substring_count a s : count_sub a s <> O -> substring a s.
Proof.
  intros Hc. induction s as [|c s IH]; [simpl in Hc; congruence|].
  cbn [count_sub] in Hc. destruct (starts_with a (c :: s)) eqn:Hs.
  - apply starts_with_prefix in Hs as [k Hk]. exists [], k. exact Hk.
  - destruct IH as (pre & post & ->); [simpl in Hc; lia|].
    exists (c :: pre), post. reflexivity.
Qed.

Lemma well_anchored_has_anchors x :
  well_anchored x -> has_four_anchors (manifest_of x).
Proof.
  intros [Hl _]. unfold has_four_anchors, manifest_of. repeat split.
  - rewrite assemble_build. unfold tail_build. eexists _, _. reflexivity.
  - rewrite assemble_refs. unfold tail_refs. eexists _, _. reflexivity.
  - rewrite assemble_header. unfold tail_group. rewrite app_nil_l.
    exists (head_refs x [] [] ++ file_reference_anchor ++ before_group x),
      (before_phase x ++ phase_block x ++ [] ++ tail_phase x).
    now rewrite <- !app_assoc.
  - rewrite assemble_block, app_nil_r.
    eexists _, (phase_block x), phase_closing, _. repeat split; eauto.
    now apply lang_lit1.
Qed.

Lemma well_anchored_block x :
  well_anchored x -> (0 < length (phase_block x))%nat.
Proof.
  intros [Hl _]. apply phase_block_key in Hl as [k ->].
  rewrite length_app. destruct anchor_lengths as (_&_&_&_&_&_&->&_). lia.
Qed.

Lemma pipeline_assemble x file_ids build_ids eb er es :
  xcode_ids file_ids -> xcode_ids build_ids ->
  anchored x eb er [] es ->
  lang (group1 sources_phase_pattern) (phase_block x ++ es) ->
  pipeline (assemble x eb er [] es) file_ids build_ids
  = Some (assemble x (eb ++ build_entries build_ids file_ids)
            (er ++ reference_entries file_ids) (group_refs file_ids)
            (es ++ phase_refs build_ids)).
Proof.
  intros Hf Hb Ha Hl. unfold pipeline.
  rewrite (step_build x file_ids build_ids Hf Hb) by exact Ha. simpl.
  apply (anchored_build x file_ids build_ids Hf Hb) in Ha.
  rewrite (step_refs x file_ids Hf) by exact Ha. simpl.
  apply (anchored_refs x file_ids Hf) in Ha.
  rewrite (step_group_first x file_ids) by exact Ha.
  apply (anchored_group x file_ids Hf) in Ha. rewrite app_nil_l in Ha.
  rewrite (step_phase x build_ids) by assumption. reflexivity.
Qed.

(** The fileRef field of a BuildBinding line holds the identifier it was
    built with, and a Reference line begins with its identifier. *)
Lemma build_entry_file_ref build_id file_id name :
  substring (lit "fileRef = " ++ file_id ++ lit " /* " ++ lit name ++ lit " */;")
    (build_file_entry build_id file_id name).
Proof.
  unfold build_file_entry.
  exists ([tab; tab] ++ build_id ++ lit " /* " ++ lit name
          ++ lit " in Sources */ = {isa = PBXBuildFile; "),
    (lit " };" ++ [nl]).
  change (lit " in Sources */ = {isa = PBXBuildFile; fileRef = ")
    with (lit " in Sources */ = {isa = PBXBuildFile; " ++ lit "fileRef = ").
  change (lit " */; };") with (lit " */;" ++ lit " };").
  now rewrite <- !app_assoc.
Qed.

Lemma reference_entry_id id name :
  ([tab; tab] ++ id ++ lit " /* " ++ lit name
   ++ lit " */ = {isa = PBXFileReference;")
  `prefix_of` file_reference_entry id name.
Proof.
  unfold file_reference_entry.
  exists (lit " lastKnownFileType = sourcecode.swift; path = " ++ lit name
          ++ lit "; sourceTree = " ++ [dq] ++ lit "<group>" ++ [dq]
          ++ lit "; };" ++ [nl]).
  change (lit " */ = {isa = PBXFileReference; lastKnownFileType = sourcecode.swift; path = ")
    with (lit " */ = {isa = PBXFileReference;"
          ++ lit " lastKnownFileType = sourcecode.swift; path = ").
  now rewrite <- !app_assoc.
Qed.


Lemma sample_ids_ok :
  xcode_ids sample_file_ids /\ xcode_ids sample_build_ids
  /\ xcode_ids second_file_ids /\ xcode_ids second_build_ids.
Proof.
  repeat split; apply xcode_id_check; vm_compute; reflexivity.
Qed.

Lemma anchored_check x :
  only_atb build_file_anchor (manifest_of x) (length (head_build x []))
  && only_atb file_reference_anchor (manifest_of x)
       (length (head_refs x [] []))
  && only_atb header_key (manifest_of x)
       (length (head_refs x [] [] ++ file_reference_anchor ++ before_group x))
  && only_atb phase_key (manifest_of x)
       (length (head_group x [] [] [] ++ group_closing ++ before_phase x))
  && in_lang (group1 sources_phase_pattern) (phase_block x) = true ->
  well_anchored x.
Proof.
  rewrite !andb_true_iff. intros [[[[H1 H2] H3] H4] H5].
  split; [now apply in_lang_sound|].
  repeat split; apply only_atb_sound; auto; discriminate.
Qed.

Lemma minimal_well_anchored : well_anchored minimal_parts.
Proof. apply anchored_check. vm_compute. reflexivity. Qed.



(** ** Lines and grep *)

Lemma lines_nonempty s : lines s <> [].
Proof.
  destruct s as [|c s]; simpl; [discriminate|].
  destruct (chr_eqb c nl); [discriminate|]. destruct (lines s); discriminate.
Qed.

Lemma lines_app_nl a b : lines (a ++ nl :: b) = lines a ++ lines b.
Proof.
  induction a as [|c a IH]; [reflexivity|]. cbn [app lines].
  destruct (chr_eqb c nl); [now rewrite IH|]. rewrite IH.
  pose proof (lines_nonempty a). destruct (lines a); [congruence|reflexivity].
Qed.

Lemma grep_count_app_nl t a b :
  grep_count t (a ++ nl :: b) = (grep_count t a + grep_count t b)%nat.
Proof.
  unfold grep_count. now rewrite lines_app_nl, List.filter_app, length_app.
Qed.

Lemma lines_no_nl a : nl ∉ a -> lines a = [a].
Proof.
  induction a as [|c a IH]; intros Hn; [reflexivity|].
  apply not_elem_of_cons in Hn as [Hc Ha]. simpl.
  destruct (chr_eqb c nl) eqn:He; [apply chr_eqb_eq in He; congruence|].
  now rewrite IH.
Qed.

Lemma grep_count_line t a :
  nl ∉ a -> grep_count t a = if contains t a then 1%nat else 0%nat.
Proof.
  intros Hn. unfold grep_count. rewrite lines_no_nl by auto. simpl.
  now destruct (contains t a).
Qed.

Lemma contains_false t s :
  t <> [] -> (forall i, ~ occ_at t s i) -> contains t s = false.
Proof.
  intros Hne H. unfold contains.
  now rewrite (proj2 (count_sub_zero t s Hne) H).
Qed.

(** Text with no occurrence of [t], then the start of a line that begins
    with a tab: only that start can make the last line match. *)
Lemma grep_tail t u l p :
  plainb t = true -> nl ∉ p -> nl ∉ l ->
  (l = [] \/ exists l', l = tab :: l') ->
  (forall i, ~ occ_at t (p ++ u) i) ->
  grep_count t (p ++ u ++ l) = if contains t l then 1%nat else 0%nat.
Proof.
  intros Hp Hnp Hnl Hl. destruct (plainb_spec _ Hp) as (Hne & Htab & _).
  revert p Hnp. induction u as [|c u IH]; intros p Hnp Hfree.
  - rewrite app_nil_l, grep_count_line
      by (rewrite elem_of_app; intros [?|?]; auto).
    rewrite app_nil_r in Hfree. unfold contains.
    rewrite count_sub_app; auto.
    + now rewrite (proj2 (count_sub_zero t p Hne) Hfree).
    + intros i Hi Ho.
      destruct (decide (i + length t <= length p)%nat) as [|Hlt]; auto.
      exfalso. destruct (occ_cross _ _ _ _ Ho) as [_ (d & r & Hr & Hd)];
        [lia..|].
      destruct Hl as [->|[l' ->]]; [discriminate|].
      injection Hr as <- _. contradiction.
  - destruct (decide (c = nl)) as [->|Hc].
    + change (p ++ (nl :: u) ++ l) with (p ++ nl :: (u ++ l)).
      rewrite grep_count_app_nl, grep_count_line by auto.
      rewrite contains_false; auto.
      * apply (IH []); [apply not_elem_of_nil|].
        intros i Ho. apply (Hfree (length (p ++ [nl]) + i)%nat).
        replace (p ++ nl :: u) with ((p ++ [nl]) ++ u)
          by now rewrite <- app_assoc.
        now apply occ_at_shift.
      * intros i Ho. apply (Hfree i). apply occ_at_app_l; auto.
        now apply occ_at_length.
    + replace (p ++ (c :: u) ++ l) with ((p ++ [c]) ++ u ++ l)
        by now rewrite <- app_assoc.
      apply IH.
      * rewrite elem_of_app, list_elem_of_singleton. intros [?|?]; auto.
      * now rewrite <- app_assoc.
Qed.

Lemma grep_free t u :
  plainb t = true -> (forall i, ~ occ_at t u i) -> grep_count t u = O.
Proof.
  intros Hp Hfree.
  pose proof (grep_tail t u [] [] Hp (not_elem_of_nil _) (not_elem_of_nil _)
                (or_introl eq_refl) Hfree) as H.
  rewrite app_nil_r in H. exact H.
Qed.

Lemma abs_line_sound ax x :
  Forall2 concr ax x -> abs_line ax = true ->
  exists y, x = (tab :: y) ++ [nl] /\ nl ∉ tab :: y.
Proof.
  intros Hc Hl. unfold abs_line in Hl. apply andb_true_iff in Hl as [Hb Ha].
  destruct (abs_block_sound _ _ Hc Hb) as [y ->]. exists y. split; auto.
  destruct ax as [|a ax _] using rev_ind; [discriminate|].
  rewrite removelast_last in Ha.
  rewrite app_comm_cons in Hc.
  apply Forall2_app_inv_l in Hc as (x1 & x2 & H1 & H2 & Hx).
  inversion H2 as [|? d ? ? _ Hnil]; subst. inversion Hnil; subst.
  apply app_inj_tail in Hx as [-> _].
  eapply abs_avoids_sound; eauto.
Qed.

(** One entry line behind text with no occurrence of [t]. *)
Lemma grep_entry t u ax x rest n :
  plainb t = true -> (forall i, ~ occ_at t u i) ->
  Forall2 concr ax x -> abs_line ax = true -> count_abs t ax = Some n ->
  grep_count t (u ++ x ++ rest)
  = ((if Nat.eqb n 0 then 0 else 1) + grep_count t rest)%nat.
Proof.
  intros Hp Hfree Hc Hl Hn. destruct (plainb_spec _ Hp) as (Hne & Htab & Hnl).
  destruct (abs_line_sound _ _ Hc Hl) as (y & -> & Hy).
  replace (u ++ ((tab :: y) ++ [nl]) ++ rest)
    with ((u ++ tab :: y) ++ nl :: rest) by now rewrite <- !app_assoc.
  rewrite grep_count_app_nl. f_equal.
  rewrite <- (app_nil_l (u ++ tab :: y)).
  rewrite grep_tail; eauto; [|apply not_elem_of_nil].
  apply count_abs_sound with (x := (tab :: y) ++ [nl]) in Hn; auto.
  rewrite count_sub_app in Hn; auto.
  - unfold contains. replace (count_sub t [nl]) with O in Hn.
    + rewrite Nat.add_0_r in Hn. rewrite Hn. now destruct n.
    + simpl. destruct t as [|c t]; [congruence|]. simpl.
      destruct (chr_eqb c nl) eqn:He; auto. apply chr_eqb_eq in He. subst.
      exfalso. apply Hnl. constructor.
  - intros i Hi Ho.
    destruct (decide (i + length t <= length (tab :: y))%nat) as [|Hlt]; auto.
    exfalso. destruct (occ_cross _ _ _ _ Ho) as [_ (d & r & Hr & Hd)]; [lia..|].
    injection Hr as <- _. contradiction.
Qed.

Lemma concr_build_file_entry b f name :
  xcode_id b -> xcode_id f ->
  Forall2 concr (abs_build_file_entry name) (build_file_entry b f name).
Proof.
  intros Hb Hf. unfold abs_build_file_entry, build_file_entry.
  repeat (apply Forall2_app);
    first [apply concr_known | now apply concr_hex24].
Qed.

Lemma concr_file_reference_entry f name :
  xcode_id f ->
  Forall2 concr (abs_file_reference_entry name) (file_reference_entry f name).
Proof.
  intros Hf. unfold abs_file_reference_entry, file_reference_entry.
  repeat (apply Forall2_app);
    first [apply concr_known | now apply concr_hex24].
Qed.

Lemma concr_group_ref f name :
  xcode_id f -> Forall2 concr (abs_group_ref name) (group_ref f name).
Proof.
  intros Hf. unfold abs_group_ref, group_ref.
  repeat (apply Forall2_app);
    first [apply concr_known | now apply concr_hex24].
Qed.

Lemma concr_phase_ref b name :
  xcode_id b -> Forall2 concr (abs_phase_ref name) (phase_ref b name).
Proof.
  intros Hb. unfold abs_phase_ref, phase_ref.
  repeat (apply Forall2_app);
    first [apply concr_known | now apply concr_hex24].
Qed.

Lemma substring_occ a s i : occ_at a s i -> substring a s.
Proof.
  intros [k Hk]. exists (take i s), k. now rewrite <- Hk, take_drop.
Qed.

Lemma substring_trans a b c : substring a b -> substring b c -> substring a c.
Proof.
  intros (p & q & ->) (p' & q' & ->). exists (p' ++ p), (q ++ q').
  now rewrite <- !app_assoc.
Qed.

Section Grep.
Variables (x : parts) (file_ids build_ids : ids) (t : str).
Hypotheses (Hf : xcode_ids file_ids) (Hb : xcode_ids build_ids).
Hypothesis Hp : plainb t = true.
Hypothesis Hfree : forall u, substring u (manifest_of x) ->
                             forall i, ~ occ_at t u i.

Lemma manifest_segments :
  manifest_of x
  = before_build x ++ stretch_refs x ++ stretch_group x ++ stretch_phase x
    ++ tail_phase x.
Proof.
  unfold manifest_of, assemble, stretch_refs, stretch_group, stretch_phase,
    tail_phase.
  rewrite !app_nil_l. now rewrite <- !app_assoc.
Qed.

Lemma assemble_segments a1 a2 b1 b2 c1 c2 d1 d2 :
  assemble x (a1 ++ a2) (b1 ++ b2) (c1 ++ c2) (d1 ++ d2)
  = before_build x ++ a1 ++ [] ++ a2 ++ stretch_refs x ++ b1 ++ [] ++ b2
    ++ stretch_group x ++ c1 ++ [] ++ c2 ++ stretch_phase x ++ d1 ++ []
    ++ d2 ++ tail_phase x.
Proof.
  unfold assemble, stretch_refs, stretch_group, stretch_phase, tail_phase.
  rewrite !app_nil_l. now rewrite <- !app_assoc.
Qed.

Lemma segments_free :
  (forall i, ~ occ_at t (before_build x) i)
  /\ (forall i, ~ occ_at t (stretch_refs x) i)
  /\ (forall i, ~ occ_at t (stretch_group x) i)
  /\ (forall i, ~ occ_at t (stretch_phase x) i)
  /\ (forall i, ~ occ_at t (tail_phase x) i).
Proof.
  repeat split; apply Hfree; rewrite manifest_segments.
  - exists [], (stretch_refs x ++ stretch_group x ++ stretch_phase x
                ++ tail_phase x).
    reflexivity.
  - exists (before_build x), (stretch_group x ++ stretch_phase x
                              ++ tail_phase x).
    reflexivity.
  - exists (before_build x ++ stretch_refs x),
      (stretch_phase x ++ tail_phase x).
    now rewrite <- !app_assoc.
  - exists (before_build x ++ stretch_refs x ++ stretch_group x),
      (tail_phase x).
    now rewrite <- !app_assoc.
  - exists (before_build x ++ stretch_refs x ++ stretch_group x
            ++ stretch_phase x), [].
    rewrite app_nil_r. now rewrite <- !app_assoc.
Qed.

(** The lines of the edited manifest that hold [t] are among the eight
    new ones. *)
Lemma grep_assemble n1 n2 n3 n4 n5 n6 n7 n8 :
  count_abs t (abs_build_file_entry "CloudKitPlugin.swift") = Some n1 ->
  count_abs t (abs_build_file_entry "CloudKitService.swift") = Some n2 ->
  count_abs t (abs_file_reference_entry "CloudKitPlugin.swift") = Some n3 ->
  count_abs t (abs_file_reference_entry "CloudKitService.swift") = Some n4 ->
  count_abs t (abs_group_ref "CloudKitPlugin.swift") = Some n5 ->
  count_abs t (abs_group_ref "CloudKitService.swift") = Some n6 ->
  count_abs t (abs_phase_ref "CloudKitPlugin.swift") = Some n7 ->
  count_abs t (abs_phase_ref "CloudKitService.swift") = Some n8 ->
  grep_count t
    (assemble x (build_entries build_ids file_ids)
       (reference_entries file_ids) (group_refs file_ids)
       (phase_refs build_ids))
  = (hit n1 + hit n2 + hit n3 + hit n4 + hit n5 + hit n6 + hit n7 + hit n8)%nat.
Proof.
  intros C1 C2 C3 C4 C5 C6 C7 C8.
  destruct segments_free as (F0 & F1 & F2 & F3 & F4).
  destruct Hf as [Hfp Hfs]. destruct Hb as [Hbp Hbs].
  assert (Fnil : forall i, ~ occ_at t [] i).
  { intros i Ho. destruct (plainb_spec _ Hp) as (Hne & _).
    apply occ_at_length in Ho; auto. destruct t; [congruence|].
    simpl in Ho. lia. }
  unfold build_entries, reference_entries, group_refs, phase_refs.
  rewrite assemble_segments.
  rewrite (grep_entry t _ _ _ _ n1 Hp F0
             (concr_build_file_entry _ _ "CloudKitPlugin.swift" Hbp Hfp) eq_refl C1).
  rewrite (grep_entry t _ _ _ _ n2 Hp Fnil
             (concr_build_file_entry _ _ "CloudKitService.swift" Hbs Hfs) eq_refl C2).
  rewrite (grep_entry t _ _ _ _ n3 Hp F1
             (concr_file_reference_entry _ "CloudKitPlugin.swift" Hfp) eq_refl C3).
  rewrite (grep_entry t _ _ _ _ n4 Hp Fnil
             (concr_file_reference_entry _ "CloudKitService.swift" Hfs) eq_refl C4).
  rewrite (grep_entry t _ _ _ _ n5 Hp F2
             (concr_group_ref _ "CloudKitPlugin.swift" Hfp) eq_refl C5).
  rewrite (grep_entry t _ _ _ _ n6 Hp Fnil
             (concr_group_ref _ "CloudKitService.swift" Hfs) eq_refl C6).
  rewrite (grep_entry t _ _ _ _ n7 Hp F3
             (concr_phase_ref _ "CloudKitPlugin.swift" Hbp) eq_refl C7).
  rewrite (grep_entry t _ _ _ _ n8 Hp Fnil
             (concr_phase_ref _ "CloudKitService.swift" Hbs) eq_refl C8).
  rewrite (grep_free t _ Hp F4). unfold hit. lia.
Qed.
End Grep.




(** ** A second run of the pipeline *)

Lemma last_char_split (c : N) x y r r' :
  c ∉ r -> c ∉ r' -> x ++ c :: r = y ++ c :: r' -> x = y /\ r = r'.
Proof.
  intros Hr Hr' H. apply (f_equal (@rev N)) in H.
  rewrite !rev_app_distr in H. simpl in H. rewrite <- !app_assoc in H.
  simpl in H. apply first_char_split in H as [H1 H2].
  - apply (f_equal (@rev N)) in H1, H2. rewrite !rev_involutive in H1, H2. auto.
  - intros Hin. apply Hr. apply list_elem_of_In, in_rev.
    now apply list_elem_of_In.
  - intros Hin. apply Hr'. apply list_elem_of_In, in_rev.
    now apply list_elem_of_In.
Qed.

Lemma primary_blocked r :
  match_at runner_group_pattern (header_line ++ [tab; tab; tab; tab] ++ r)
  = None.
Proof.
  unfold match_at, runner_group_pattern. cbn [group1 group2 atoms_k atom_k].
  rewrite lit_k_app. reflexivity.
Qed.

(** Two child entries that end at the same place of a buffer have the same
    label, and so the same length when their tokens do. *)
Lemma child_entry_end p h lab p' h' lab' :
  42 ∉ lab -> 42 ∉ lab' ->
  p ++ child_entry h lab = p' ++ child_entry h' lab' -> lab = lab'.
Proof.
  intros Hs Hs' H. unfold child_entry in H.
  change (lit " /* ") with ([32; 47] ++ 42 :: [32]) in H.
  change (lit " */,") with ([32] ++ 42 :: [47; 44]) in H.
  assert (Hend : forall q (g l : list N),
            q ++ [tab; tab; tab; tab] ++ g ++ ([32; 47] ++ 42 :: [32]) ++ l
              ++ ([32] ++ 42 :: [47; 44]) ++ [nl]
            = ((q ++ [tab; tab; tab; tab] ++ g ++ [32; 47])
               ++ 42 :: ([32] ++ l ++ [32])) ++ 42 :: [47; 44; nl]).
  { intros q g l. rewrite <- !app_assoc. cbn [app].
    rewrite <- ?app_assoc. cbn [app]. reflexivity. }
  rewrite !Hend in H.
  apply last_char_split in H as [H _];
    [|rewrite !elem_of_cons, elem_of_nil; intros [?|[?|[?|?]]]; discriminate || auto..].
  apply last_char_split in H as [_ H].
  - simpl in H. injection H as H. now apply app_inv_tail in H.
  - rewrite !elem_of_app, !list_elem_of_singleton.
    intros [?|[?|?]]; [discriminate|auto|discriminate].
  - rewrite !elem_of_app, !list_elem_of_singleton.
    intros [?|[?|?]]; [discriminate|auto|discriminate].
Qed.

Lemma not_elem_check (c : N) l :
  forallb (fun d => negb (chr_eqb c d)) l = true -> c ∉ l.
Proof.
  rewrite forallb_forall. intros H Hin. apply list_elem_of_In, H in Hin.
  unfold chr_eqb in Hin. now rewrite N.eqb_refl in Hin.
Qed.

Lemma alt_closing_eq : alt_closing = group_closing ++ runner_tail.
Proof. vm_compute. reflexivity. Qed.

Lemma alt_closing_runner :
  alt_closing = take 9 alt_closing ++ runner_key ++ drop 23 alt_closing.
Proof. vm_compute. reflexivity. Qed.

Lemma runner_tail_length : length runner_tail = 45%nat.
Proof. vm_compute. reflexivity. Qed.

Lemma runner_in_closing p r :
  occ_at runner_key (p ++ alt_closing ++ r) (length p + 9).
Proof.
  replace (p ++ alt_closing ++ r)
    with ((p ++ take 9 alt_closing) ++ runner_key
          ++ drop 23 alt_closing ++ r).
  - replace (length p + 9)%nat with (length (p ++ take 9 alt_closing))
      by now rewrite length_app.
    apply occ_at_here.
  - rewrite (alt_closing_runner) at 3. now rewrite <- !app_assoc.
Qed.

Section SecondRun.
Variables (x : parts) (file_ids build_ids first_ids : ids).
Hypotheses (Hf : xcode_ids file_ids) (Hb : xcode_ids build_ids).
Hypothesis (H1 : xcode_ids first_ids).
Variable (k : str).
Hypothesis Htail : before_phase x = runner_tail ++ k.

Local Ltac lens :=
  unfold head_phase, head_group, head_refs, head_build;
  rewrite ?Htail; rewrite ?length_app; rewrite ?runner_tail_length;
  destruct anchor_lengths as (? & ? & ? & ? & ? & ? & ? & ?);
  lia.

Local Ltac inert_block :=
  first [ apply (concr_build_entries file_ids build_ids Hf Hb)
        | apply (concr_reference_entries file_ids Hf)
        | apply (concr_group_refs file_ids Hf)
        | apply (concr_phase_refs build_ids Hb) ].

Local Ltac after H :=
  eapply only_at_after; [inert_block | vm_compute; reflexivity | exact H
                        | lens | lens].

Local Ltac before H :=
  eapply only_at_before; [inert_block | vm_compute; reflexivity | exact H
                         | lens].

(** "path = Runner;" stays single under each of the four insertions. *)
Lemma runner_build eb er eg es :
  only_at runner_key (assemble x eb er eg es)
    (length (head_group x eb er eg) + 9) ->
  only_at runner_key
    (assemble x (eb ++ build_entries build_ids file_ids) er eg es)
    (length (head_group x (eb ++ build_entries build_ids file_ids) er eg) + 9).
Proof.
  rewrite !assemble_build, head_build_app, <- app_assoc. intros H. after H.
Qed.

Lemma runner_refs eb er eg es :
  only_at runner_key (assemble x eb er eg es)
    (length (head_group x eb er eg) + 9) ->
  only_at runner_key
    (assemble x eb (er ++ reference_entries file_ids) eg es)
    (length (head_group x eb (er ++ reference_entries file_ids) eg) + 9).
Proof.
  rewrite !assemble_refs, head_refs_app, <- app_assoc. intros H. after H.
Qed.

Lemma runner_group eb er eg es :
  only_at runner_key (assemble x eb er eg es)
    (length (head_group x eb er eg) + 9) ->
  only_at runner_key
    (assemble x eb er (eg ++ group_refs file_ids) es)
    (length (head_group x eb er (eg ++ group_refs file_ids)) + 9).
Proof.
  rewrite !assemble_group, head_group_app, <- app_assoc. intros H. after H.
Qed.

Lemma runner_phase eb er eg es :
  only_at runner_key (assemble x eb er eg es)
    (length (head_group x eb er eg) + 9) ->
  only_at runner_key
    (assemble x eb er eg (es ++ phase_refs build_ids))
    (length (head_group x eb er eg) + 9).
Proof.
  rewrite !assemble_phase, head_phase_app, <- app_assoc. intros H. before H.
Qed.

(** The buffer around the last child of the group, once a first run has
    put its two entries in. *)
Lemma assemble_child eb er es ins :
  assemble x eb er (group_refs first_ids ++ ins) es
  = (head_refs x eb er ++ file_reference_anchor ++ before_group x
     ++ header_line ++ group_ref (plugin first_ids) "CloudKitPlugin.swift")
    ++ child_entry (service first_ids) (lit "CloudKitService.swift")
    ++ ins ++ alt_closing ++ k ++ phase_block x ++ es ++ tail_phase x.
Proof.
  unfold assemble, head_refs, head_build, tail_phase, group_refs.
  rewrite Htail, alt_closing_eq. now rewrite <- !app_assoc.
Qed.

Lemma service_label_ok :
  lit "CloudKitService.swift" <> [] /\ 42 ∉ lit "CloudKitService.swift".
Proof.
  split; [discriminate|]. apply not_elem_check. vm_compute. reflexivity.
Qed.

Lemma match_at_child v :
  match_at alt_pattern
    (child_entry (service first_ids) (lit "CloudKitService.swift")
     ++ alt_closing ++ v)
  = Some (child_entry (service first_ids) (lit "CloudKitService.swift"),
          alt_closing, v).
Proof.
  destruct service_label_ok as [Hne Hstar]. destruct H1 as [_ Hs].
  now apply match_at_child_entry.
Qed.

Lemma step_group_second eb er es :
  only_at header_key (assemble x eb er (group_refs first_ids) es)
    (length (head_refs x eb er ++ file_reference_anchor ++ before_group x)) ->
  only_at runner_key (assemble x eb er (group_refs first_ids) es)
    (length (head_group x eb er (group_refs first_ids)) + 9) ->
  add_to_runner_group (assemble x eb er (group_refs first_ids) es) file_ids
  = assemble x eb er (group_refs first_ids ++ group_refs file_ids) es.
Proof.
  intros Hh Hr. destruct service_label_ok as [Hne Hstar].
  destruct H1 as [Hp1 Hs1].
  assert (Hprim : sub runner_group_pattern (group_replacer file_ids)
                    (assemble x eb er (group_refs first_ids) es)
                  = assemble x eb er (group_refs first_ids) es).
  { apply sub_id. intros i.
    destruct (match_at _ (drop i _)) eqn:Hm; auto. exfalso.
    assert (Hi : i = length (head_refs x eb er ++ file_reference_anchor
                             ++ before_group x)).
    { apply Hh. apply (occ_at_prefix _ header_line); [now exists [nl]|].
      apply (match_at_first_literal runner_group_pattern header_line []
               _ eq_refl).
      rewrite Hm. eauto. }
    subst i. rewrite assemble_header, drop_app_length in Hm.
    unfold group_refs, group_ref in Hm. rewrite <- !app_assoc in Hm.
    rewrite primary_blocked in Hm. discriminate. }
  rewrite add_to_runner_group_eq. cbv zeta. rewrite Hprim.
  destruct (decide _) as [_|Hn]; [|congruence].
  rewrite <- (app_nil_r (group_refs first_ids)) at 1.
  rewrite !assemble_child.
  rewrite app_nil_l. rewrite sub_only.
  - rewrite group_replacer_refs. now rewrite <- !app_assoc.
  - intros i [[[n1 n2] r] Hm].
    pose proof (match_at_sound _ _ _ _ _ Hm) as (Hd & Hn1 & Hn2).
    apply lang_lit1 in Hn2. subst n2.
    destruct (alt_group1_shape _ Hn1) as (h & lab & -> & Hhl & Hlab).
    set (W := head_refs x eb er ++ file_reference_anchor ++ before_group x
              ++ header_line
              ++ group_ref (plugin first_ids) "CloudKitPlugin.swift") in *.
    set (child := child_entry (service first_ids)
                    (lit "CloudKitService.swift")) in *.
    set (v := k ++ phase_block x ++ es ++ tail_phase x) in *.
    set (C := W ++ child ++ alt_closing ++ v) in *.
    assert (Hc : C = (take i C ++ child_entry h lab) ++ alt_closing ++ r).
    { rewrite <- app_assoc, <- Hd. now rewrite take_drop. }
    pose proof (runner_in_closing (take i C ++ child_entry h lab) r) as Hocc.
    rewrite <- Hc in Hocc.
    assert (Hpos : assemble x eb er (group_refs first_ids) es = C).
    { rewrite <- (app_nil_r (group_refs first_ids)).
      now rewrite assemble_child, app_nil_l. }
    rewrite Hpos in Hr. apply Hr in Hocc.
    assert (Hlen : length (head_group x eb er (group_refs first_ids))
                   = length (W ++ child)).
    { unfold head_group, W, child, group_refs.
      change (child_entry (service first_ids) (lit "CloudKitService.swift"))
        with (group_ref (service first_ids) "CloudKitService.swift").
      now rewrite <- !app_assoc. }
    rewrite Hlen in Hocc.
    assert (Hpre : take i C ++ child_entry h lab = W ++ child).
    { assert (HC : C = (W ++ child) ++ alt_closing ++ v)
        by (unfold C; now rewrite <- app_assoc).
      rewrite HC in Hc at 1.
      apply app_inj_1 in Hc as [Hc _]; [now symmetry|lia]. }
    pose proof (child_entry_end _ _ _ _ _ _ Hlab Hstar Hpre) as ->.
    apply (f_equal length) in Hpre. rewrite !length_app in Hpre.
    unfold child, child_entry in Hpre. rewrite !length_app in Hpre.
    destruct Hs1 as [Hs1 _]. rewrite Hhl, Hs1 in Hpre.
    rewrite length_take in Hpre.
    assert (i <= length C)%nat.
    { destruct (decide (i <= length C)%nat); auto.
      rewrite drop_ge in Hd by lia. destruct (child_entry h _); discriminate. }
    lia.
  - apply match_at_child.
  - unfold child_entry. discriminate.
Qed.
End SecondRun.

Lemma adds_of_each_trans n m a b c :
  adds_of_each n a b -> adds_of_each m b c -> adds_of_each (n + m) a c.
Proof.
  intros (A1 & A2 & A3 & A4) (B1 & B2 & B3 & B4). repeat split; lia.
Qed.

Lemma anchored_once x file_ids build_ids :
  xcode_ids file_ids -> xcode_ids build_ids -> well_anchored x ->
  anchored x (build_entries build_ids file_ids) (reference_entries file_ids)
    (group_refs file_ids) (phase_refs build_ids).
Proof.
  intros Hf Hb Hw. pose proof (well_anchored_block x Hw) as Hblk.
  destruct Hw as [_ Ha].
  apply (anchored_build x file_ids build_ids Hf Hb) in Ha.
  apply (anchored_refs x file_ids Hf) in Ha.
  apply (anchored_group x file_ids Hf) in Ha.
  apply (anchored_phase x build_ids Hb _ _ _ _ Hblk) in Ha.
  exact Ha.
Qed.

Lemma pipeline_second x f1 b1 f2 b2 :
  xcode_ids f1 -> xcode_ids b1 -> xcode_ids f2 -> xcode_ids b2 ->
  well_anchored x -> runner_anchored x [] [] [] [] ->
  pipeline
    (assemble x (build_entries b1 f1) (reference_entries f1) (group_refs f1)
       (phase_refs b1)) f2 b2
  = Some (assemble x (build_entries b1 f1 ++ build_entries b2 f2)
            (reference_entries f1 ++ reference_entries f2)
            (group_refs f1 ++ group_refs f2) (phase_refs b1 ++ phase_refs b2)).
Proof.
  intros Hf1 Hb1 Hf2 Hb2 Hw [[k Hk] Hr].
  pose proof (anchored_once x f1 b1 Hf1 Hb1 Hw) as Ha.
  pose proof (well_anchored_block x Hw) as Hblk.
  apply (runner_build x f1 b1 Hf1 Hb1) in Hr.
  apply (runner_refs x f1 Hf1) in Hr.
  apply (runner_group x f1 Hf1) in Hr.
  apply (runner_phase x b1 Hb1 k Hk) in Hr.
  rewrite !app_nil_l in Hr.
  unfold pipeline.
  rewrite (step_build x f2 b2 Hf2 Hb2) by exact Ha. simpl.
  apply (anchored_build x f2 b2 Hf2 Hb2) in Ha.
  apply (runner_build x f2 b2 Hf2 Hb2) in Hr.
  rewrite (step_refs x f2 Hf2) by exact Ha. simpl.
  apply (anchored_refs x f2 Hf2) in Ha.
  apply (runner_refs x f2 Hf2) in Hr.
  rewrite (step_group_second x f2 f1 Hf1 k Hk); [|apply Ha|exact Hr].
  apply (anchored_group x f2 Hf2) in Ha.
  rewrite (step_phase x b2); auto.
  destruct Hw as [Hl _]. apply phase_block_extend; auto.
  now apply phase_refs_no_paren.
Qed.


Lemma runner_well_anchored :
  well_anchored runner_parts /\ runner_anchored runner_parts [] [] [] [].
Proof.
  split; [apply anchored_check; vm_compute; reflexivity|]. split.
  - eexists. reflexivity.
  - apply only_atb_sound; [discriminate|]. vm_compute. reflexivity.
Qed.



(** ** Identifiers and the run as a whole *)

Lemma hex_digit_upper d :
  d < 16 -> is_upper_hex (upper_char (hex_digit d)) = true.
Proof.
  intros Hd.
  assert (H : d = 0 \/ d = 1 \/ d = 2 \/ d = 3 \/ d = 4 \/ d = 5 \/ d = 6
              \/ d = 7 \/ d = 8 \/ d = 9 \/ d = 10 \/ d = 11 \/ d = 12
              \/ d = 13 \/ d = 14 \/ d = 15) by lia.
  repeat (destruct H as [->|H]; [reflexivity|]). subst. reflexivity.
Qed.

Lemma hexlify_upper bs :
  Forall (fun b => b < 256) bs ->
  length (upper (hexlify bs)) = (2 * length bs)%nat
  /\ Forall (fun c => is_upper_hex c = true) (upper (hexlify bs)).
Proof.
  induction 1 as [|b bs Hb _ [IHl IHf]]; [split; [reflexivity|constructor]|].
  cbn [hexlify upper map length]. split.
  - unfold upper in IHl. rewrite IHl. lia.
  - constructor; [|constructor; [|exact IHf]].
    + apply hex_digit_upper. apply N.Div0.div_lt_upper_bound. lia.
    + apply hex_digit_upper. apply N.mod_lt. lia.
Qed.

Lemma token_bytes_bounded n g :
  length (fst (token_bytes n g)) = n
  /\ Forall (fun b => b < 256) (fst (token_bytes n g)).
Proof.
  unfold token_bytes. simpl. split.
  - now rewrite length_map, length_seq.
  - apply Forall_forall. intros b Hb. apply list_elem_of_In, in_map_iff in Hb.
    destruct Hb as (i & <- & _). apply N.mod_lt. lia.
Qed.

Lemma generate_xcode_id_ok g : xcode_id (fst (generate_xcode_id g)).
Proof.
  destruct (token_bytes_bounded 12 g) as [Hl Hb].
  destruct (hexlify_upper _ Hb) as [Hl' Hf].
  unfold generate_xcode_id, token_hex.
  destruct (token_bytes 12 g) as [bs g'] eqn:Ht. simpl in *.
  split; auto. rewrite Hl', Hl. reflexivity.
Qed.

(** C8.  Every call of [generate_xcode_id] returns 24 characters, each an
    upper-case hexadecimal digit.  The call reads twelve bytes of the random
    source and keeps nothing but the position in that source; nothing
    compares the identifier with the buffer or with earlier identifiers, so
    a source that repeats itself gives the same identifier again. *)
Theorem generate_xcode_id_shape g :
  xcode_id (fst (generate_xcode_id g))
  /\ fst (generate_xcode_id g)
     = upper (hexlify (map (fun i => entropy g (cursor g + i)%nat mod 256)
                         (seq 0 12)))
  /\ snd (generate_xcode_id g)
     = {| entropy := entropy g; cursor := (cursor g + 12)%nat |}
  /\ (forall b,
        fst (generate_xcode_id (snd (generate_xcode_id (constant_rng b))))
        = fst (generate_xcode_id (constant_rng b))).
Proof.
  split; [|split; [|split]]; try reflexivity.
  apply generate_xcode_id_ok.
Qed.

Lemma generate_ids_ok g :
  xcode_ids (fst (fst (generate_ids g)))
  /\ xcode_ids (snd (fst (generate_ids g))).
Proof.
  unfold generate_ids.
  destruct (generate_xcode_id g) as [fp g1] eqn:E1.
  destruct (generate_xcode_id g1) as [fs g2] eqn:E2.
  destruct (generate_xcode_id g2) as [bp g3] eqn:E3.
  destruct (generate_xcode_id g3) as [bs g4] eqn:E4.
  pose proof (generate_xcode_id_ok g) as H1.
  pose proof (generate_xcode_id_ok g1) as H2.
  pose proof (generate_xcode_id_ok g2) as H3.
  pose proof (generate_xcode_id_ok g3) as H4.
  rewrite E1 in H1. rewrite E2 in H2. rewrite E3 in H3. rewrite E4 in H4.
  repeat split; simpl; first [apply H1|apply H2|apply H3|apply H4].
Qed.

(** C9.  A run writes the manifest once, after the four editors, or not at
    all.  When [modify_pbxproj] raises (the manifest is missing, or an
    editor fails), the files are as they were and nothing has been written.
    When it returns, it returns [True] and has written one thing, the
    result of the four editors on what it read, to the manifest's path.
    With the manifest in place the run does return: the generated
    identifiers are upper-case hexadecimal, on which no editor fails. *)
Theorem write_once_at_end project_path w g :
  match modify_pbxproj project_path w g with
  | (Raise _, w', _) => files w' = files w /\ writes w' = writes w
  | (Ok b, w', _) =>
      b = true
      /\ exists content out,
           files w !! pbxproj_path project_path = Some content
           /\ pipeline content (fst (fst (generate_ids g)))
                (snd (fst (generate_ids g))) = Some out
           /\ writes w' = writes w ++ [(pbxproj_path project_path, out)]
           /\ files w' = <[pbxproj_path project_path := out]> (files w)
  end
  /\ (is_Some (files w !! pbxproj_path project_path) ->
      fst (fst (modify_pbxproj project_path w g)) = Ok true)
  /\ (files w !! pbxproj_path project_path = None ->
      modify_pbxproj project_path w g
      = (Raise (FileNotFoundError (pbxproj_path project_path)), w, g)).
Proof.
  pose proof (generate_ids_ok g) as [Hf Hb].
  unfold modify_pbxproj, read_pbxproj.
  destruct (files w !! pbxproj_path project_path) as [content|] eqn:Hfile.
  - destruct (generate_ids g) as [[file_ids build_ids] g'] eqn:Hg.
    simpl in Hf, Hb.
    assert (E1 : exists c1,
              add_pbx_build_files content build_ids file_ids = Some c1).
    { eexists. unfold add_pbx_build_files. apply sub_template_safe.
      apply template_safe_build; now apply xcode_ids_safe. }
    destruct E1 as [c1 E1].
    assert (E2 : exists c2, add_pbx_file_references c1 file_ids = Some c2).
    { eexists. unfold add_pbx_file_references. apply sub_template_safe.
      apply template_safe_reference; now apply xcode_ids_safe. }
    destruct E2 as [c2 E2]. rewrite E1, E2. cbn [fst snd].
    split; [|split; [reflexivity|discriminate]].
    split; [reflexivity|].
    exists content,
      (add_to_sources_build_phase (add_to_runner_group c2 file_ids) build_ids).
    split; [reflexivity|]. split; [|split; reflexivity].
    unfold pipeline. rewrite E1. simpl. rewrite E2. reflexivity.
  - split; [auto|]. split; [|reflexivity]. intros [? ?]; discriminate.
Qed.

Lemma write_once_at_end_witness :
  fst (fst (modify_pbxproj "ios/Runner.xcodeproj" sample_world
              (constant_rng 171)))
  = Ok true.
Proof.
  apply (proj1 (proj2 (write_once_at_end "ios/Runner.xcodeproj" sample_world
                         (constant_rng 171)))).
  eexists. apply lookup_singleton_eq.
Defined.

(** ** The identifiers and the bytes they are made of *)

Lemma upper_hex_digit_inj d e :
  d < 16 -> e < 16 ->
  upper_char (hex_digit d) = upper_char (hex_digit e) -> d = e.
Proof.
  unfold upper_char, hex_digit. intros Hd He.
  destruct (N.ltb_spec d 10), (N.ltb_spec e 10);
    repeat match goal with
           | |- context [?a <=? ?b] => destruct (N.leb_spec a b)
           end; cbn [andb]; lia.
Qed.

Lemma byte_digits b c :
  b / 16 = c / 16 -> b mod 16 = c mod 16 -> b = c.
Proof.
  intros Hq Hr. rewrite (N.div_mod' b 16), (N.div_mod' c 16). congruence.
Qed.

Lemma upper_hexlify_inj bs cs :
  Forall (fun b => b < 256) bs -> Forall (fun b => b < 256) cs ->
  upper (hexlify bs) = upper (hexlify cs) -> bs = cs.
Proof.
  intros Hb. revert cs.
  induction Hb as [|b bs Hb _ IH]; intros cs Hc E.
  - destruct cs; [reflexivity|discriminate].
  - destruct Hc as [|c cs Hc Hcs]; [discriminate|].
    cbn [hexlify upper map] in E. injection E as E1 E2 E3.
    f_equal; [|now apply IH].
    apply byte_digits; apply upper_hex_digit_inj; auto;
      first [apply N.Div0.div_lt_upper_bound; lia | apply N.mod_lt; lia].
Qed.

Lemma generate_xcode_id_bytes g :
  generate_xcode_id g
  = (upper (hexlify (fst (token_bytes 12 g))),
     {| entropy := entropy g; cursor := (cursor g + 12)%nat |}).
Proof. reflexivity. Qed.

(** X1.  The identifier keeps all of the twelve bytes it is made of: two
    calls of [generate_xcode_id] return the same identifier exactly when
    they read the same twelve bytes. *)
Theorem generate_xcode_id_inj g h :
  fst (generate_xcode_id g) = fst (generate_xcode_id h)
  <-> fst (token_bytes 12 g) = fst (token_bytes 12 h).
Proof.
  rewrite !generate_xcode_id_bytes. cbn [fst]. split.
  - apply upper_hexlify_inj; apply token_bytes_bounded.
  - now intros ->.
Qed.

Lemma generate_xcode_id_inj_witness :
  fst (generate_xcode_id (constant_rng 171))
  = fst (generate_xcode_id (snd (generate_xcode_id (constant_rng 171)))).
Proof.
  apply (proj2 (generate_xcode_id_inj (constant_rng 171)
                  (snd (generate_xcode_id (constant_rng 171))))).
  reflexivity.
Defined.

Lemma drawn_bytes g k :
  drawn g k
  = fst (token_bytes 12
           {| entropy := entropy g; cursor := (cursor g + 12 * k)%nat |}).
Proof. reflexivity. Qed.

Lemma drawn_bounded g k : Forall (fun b => b < 256) (drawn g k).
Proof. rewrite drawn_bytes. apply token_bytes_bounded. Qed.

Lemma generate_ids_drawn g :
  generate_ids g
  = ({| plugin := upper (hexlify (drawn g 0));
        service := upper (hexlify (drawn g 1)) |},
     {| plugin := upper (hexlify (drawn g 2));
        service := upper (hexlify (drawn g 3)) |},
     {| entropy := entropy g; cursor := (cursor g + 48)%nat |}).
Proof.
  unfold generate_ids. rewrite !generate_xcode_id_bytes.
  unfold drawn, token_bytes. cbn [fst entropy cursor].
  replace (cursor g + 12 * 0)%nat with (cursor g) by lia.
  replace (cursor g + 12 + 12)%nat with (cursor g + 12 * 2)%nat by lia.
  replace (cursor g + 12 * 2 + 12)%nat with (cursor g + 12 * 3)%nat by lia.
  replace (cursor g + 12 * 3 + 12)%nat with (cursor g + 48)%nat by lia.
  reflexivity.
Qed.

(** X2.  A run draws its four identifiers from 48 consecutive bytes of the
    random source, twelve for each, in the order file plugin, file service,
    build plugin, build service.  The four identifiers differ from one
    another exactly when the four blocks of bytes do: nothing else keeps
    them apart. *)
Theorem generate_ids_distinct g :
  let '(file_ids, build_ids, g') := generate_ids g in
  g' = {| entropy := entropy g; cursor := (cursor g + 48)%nat |}
  /\ [plugin file_ids; service file_ids; plugin build_ids; service build_ids]
     = map (fun k => upper (hexlify (drawn g k))) [0; 1; 2; 3]%nat
  /\ (NoDup [plugin file_ids; service file_ids; plugin build_ids;
             service build_ids]
      <-> NoDup [drawn g 0; drawn g 1; drawn g 2; drawn g 3]).
Proof.
  rewrite generate_ids_drawn. cbn [plugin service].
  split; [reflexivity|]. split; [reflexivity|].
  assert (Hinj : forall j k,
             upper (hexlify (drawn g j)) = upper (hexlify (drawn g k))
             <-> drawn g j = drawn g k).
  { intros j k. split; [|now intros ->].
    apply upper_hexlify_inj; apply drawn_bounded. }
  rewrite !NoDup_cons, !not_elem_of_cons, !Hinj.
  split; intros H; repeat split;
    first [apply not_elem_of_nil | apply NoDup_nil_2 | tauto].
Qed.

Lemma generate_ids_distinct_witness :
  let '(file_ids, build_ids, _) := generate_ids counting_rng in
  NoDup [plugin file_ids; service file_ids; plugin build_ids;
         service build_ids].
Proof.
  pose proof (generate_ids_distinct counting_rng) as H.
  destruct (generate_ids counting_rng) as [[file_ids build_ids] g'].
  destruct H as (_ & _ & H). apply H.
  apply (bool_decide_unpack _). vm_compute. exact I.
Defined.

(** ** Reading, writing and the report of a run *)

Lemma string_length_app s t :
  String.length (s +:+ t) = (String.length s + String.length t)%nat.
Proof. induction s as [|a s IH]; simpl; auto. Qed.

Lemma string_app_inj_l t p q : (p +:+ t)%string = (q +:+ t)%string -> p = q.
Proof.
  revert q. induction p as [|a p IH]; intros [|b q] E.
  - reflexivity.
  - apply (f_equal String.length) in E.
    rewrite !string_length_app in E. simpl in E. lia.
  - apply (f_equal String.length) in E.
    rewrite !string_length_app in E. simpl in E. lia.
  - simpl in E. injection E as -> E. f_equal. now apply IH.
Qed.

Lemma pbxproj_path_inj p q : pbxproj_path p = pbxproj_path q -> p = q.
Proof. apply string_app_inj_l. Qed.



Lemma modify_pbxproj_run project_path w g content :
  files w !! pbxproj_path project_path = Some content ->
  exists out,
    pipeline content (fst (fst (generate_ids g))) (snd (fst (generate_ids g)))
    = Some out
    /\ modify_pbxproj project_path w g
       = (Ok true,
          {| files := <[pbxproj_path project_path := out]> (files w);
             writes := writes w ++ [(pbxproj_path project_path, out)];
             stdout :=
               stdout w
               ++ run_report (fst (fst (generate_ids g)))
                    (snd (fst (generate_ids g))) project_path |},
          snd (generate_ids g)).
Proof.
  intros Hfile. pose proof (generate_ids_ok g) as [Hf Hb].
  unfold modify_pbxproj, read_pbxproj. rewrite Hfile.
  destruct (generate_ids g) as [[file_ids build_ids] g'] eqn:Hg.
  cbn [fst snd] in *.
  assert (E1 : add_pbx_build_files content build_ids file_ids
               = Some (sub (literal_pattern build_file_anchor)
                         (fun m1 _ => build_entries build_ids file_ids ++ m1)
                         content)).
  { unfold add_pbx_build_files. apply sub_template_safe.
    apply template_safe_build; now apply xcode_ids_safe. }
  rewrite E1.
  set (c1 := sub (literal_pattern build_file_anchor) _ content) in *.
  assert (E2 : add_pbx_file_references c1 file_ids
               = Some (sub (literal_pattern file_reference_anchor)
                         (fun m1 _ => reference_entries file_ids ++ m1) c1)).
  { unfold add_pbx_file_references. apply sub_template_safe.
    apply template_safe_reference; now apply xcode_ids_safe. }
  rewrite E2.
  set (c2 := sub (literal_pattern file_reference_anchor) _ c1) in *.
  exists (add_to_sources_build_phase (add_to_runner_group c2 file_ids)
            build_ids).
  split.
  - unfold pipeline. rewrite E1. cbn [mbind option_bind]. rewrite E2.
    reflexivity.
  - unfold print_ids, print, write_pbxproj, run_report.
    cbn [files writes stdout]. rewrite <- !app_assoc. reflexivity.
Qed.

(** X4.  What a run prints does not depend on the manifest: with the
    manifest in place, the report is the six lines of the identifiers, the
    four lines that say that entries were added and the line that says that
    the manifest was updated, whatever the editors found. *)
Theorem report_ignores_content project_path w g :
  is_Some (files w !! pbxproj_path project_path) ->
  stdout (snd (fst (modify_pbxproj project_path w g)))
  = stdout w
    ++ run_report (fst (fst (generate_ids g))) (snd (fst (generate_ids g)))
         project_path.
Proof.
  intros [content Hfile].
  destruct (modify_pbxproj_run project_path w g content Hfile)
    as (out & _ & ->).
  reflexivity.
Qed.

Lemma report_ignores_content_witness :
  stdout (snd (fst (modify_pbxproj "ios/Runner.xcodeproj" plain_world
                      (constant_rng 171))))
  = stdout (snd (fst (modify_pbxproj "ios/Runner.xcodeproj" sample_world
                        (constant_rng 171)))).
Proof.
  rewrite (report_ignores_content "ios/Runner.xcodeproj" plain_world);
    [|eexists; apply lookup_singleton_eq].
  rewrite (report_ignores_content "ios/Runner.xcodeproj" sample_world);
    [|eexists; apply lookup_singleton_eq].
  reflexivity.
Defined.

Lemma pipeline_without_anchors content file_ids build_ids :
  template_safe file_ids -> template_safe build_ids ->
  ~ substring build_file_anchor content ->
  ~ substring file_reference_anchor content ->
  ~ occurs runner_group_pattern content -> ~ occurs alt_pattern content ->
  ~ occurs sources_phase_pattern content ->
  pipeline content file_ids build_ids = Some content.
Proof.
  intros Hf Hb Hbuild Hrefs Hgroup Halt Hphase. unfold pipeline.
  unfold add_pbx_build_files.
  rewrite sub_template_safe by (now apply template_safe_build).
  rewrite sub_no_occurrence by (now rewrite occurs_literal).
  cbn [mbind option_bind]. unfold add_pbx_file_references.
  rewrite sub_template_safe by (now apply template_safe_reference).
  rewrite sub_no_occurrence by (now rewrite occurs_literal).
  cbn [mbind option_bind]. rewrite add_to_runner_group_eq. cbv zeta.
  rewrite (sub_no_occurrence runner_group_pattern) by assumption.
  destruct (decide (content = content)) as [_|Hne]; [|now destruct Hne].
  rewrite (sub_no_occurrence alt_pattern) by assumption.
  rewrite add_to_sources_build_phase_eq.
  now rewrite sub_no_occurrence.
Qed.



(** X6.  Two runs one after the other: the second reads what the first
    wrote.  Both return [True]; the log of writes grows by the output of the
    editors on the manifest and then by their output on that output, with
    the identifiers of the next 48 bytes; the files keep the second. *)
Theorem second_run_reads_first project_path w g :
  is_Some (files w !! pbxproj_path project_path) ->
  let '(r1, w1, g1) := modify_pbxproj project_path w g in
  let '(r2, w2, g2) := modify_pbxproj project_path w1 g1 in
  r1 = Ok true /\ r2 = Ok true
  /\ g1 = {| entropy := entropy g; cursor := (cursor g + 48)%nat |}
  /\ g2 = {| entropy := entropy g; cursor := (cursor g + 96)%nat |}
  /\ exists content once twice,
       files w !! pbxproj_path project_path = Some content
       /\ pipeline content (fst (fst (generate_ids g)))
            (snd (fst (generate_ids g))) = Some once
       /\ pipeline once (fst (fst (generate_ids g1)))
            (snd (fst (generate_ids g1))) = Some twice
       /\ writes w2
          = writes w ++ [(pbxproj_path project_path, once);
                         (pbxproj_path project_path, twice)]
       /\ files w2 = <[pbxproj_path project_path := twice]> (files w).
Proof.
  intros [content Hfile].
  destruct (modify_pbxproj_run project_path w g content Hfile)
    as (once & Honce & ->).
  match goal with
  | |- context [modify_pbxproj project_path ?w1 ?g1] =>
      destruct (modify_pbxproj_run project_path w1 g1 once
                  (lookup_insert_eq _ _ _)) as (twice & Htwice & ->)
  end.
  split; [reflexivity|]. split; [reflexivity|].
  split; [now rewrite generate_ids_drawn|].
  split.
  - rewrite !generate_ids_drawn. cbn [snd entropy cursor]. f_equal. lia.
  - exists content, once, twice. cbn [files writes].
    split; [assumption|]. split; [assumption|]. split; [assumption|].
    split; [now rewrite <- app_assoc|]. apply insert_insert_eq.
Qed.

Lemma second_run_reads_first_witness :
  let '(r1, w1, g1) :=
    modify_pbxproj "ios/Runner.xcodeproj" sample_world (constant_rng 171) in
  let '(r2, w2, g2) := modify_pbxproj "ios/Runner.xcodeproj" w1 g1 in
  r1 = Ok true /\ r2 = Ok true /\ cursor g2 = 96%nat /\ length (writes w2) = 2%nat.
Proof.
  pose proof (second_run_reads_first "ios/Runner.xcodeproj" sample_world
                (constant_rng 171)) as H.
  destruct (modify_pbxproj "ios/Runner.xcodeproj" sample_world
              (constant_rng 171)) as [[r1 w1] g1].
  destruct (modify_pbxproj "ios/Runner.xcodeproj" w1 g1) as [[r2 w2] g2].
  destruct H as (H1 & H2 & _ & H3 & content & once & twice & _ & _ & _ & H4 & _).
  - eexists. apply lookup_singleton_eq.
  - rewrite H3, H4. repeat split; assumption.
Defined.

(** ** verify_files_exist and main *)

Lemma stdout_print line w : stdout (print line w) = stdout w ++ [line].
Proof. reflexivity. Qed.

(** X11.  [verify_files_exist] returns [True] exactly when both Swift files
    exist, and then prints a line for each.  It looks for the plugin first
    and stops at the first file that is missing: with both missing, only
    the plugin is reported.  It changes no file. *)
Theorem verify_files_exist_checks dirs project_root w :
  let plugin_path := swift_path project_root "CloudKitPlugin.swift" in
  let service_path := swift_path project_root "CloudKitService.swift" in
  let '(verified, w') := verify_files_exist dirs project_root w in
  (verified = true
   <-> path_exists dirs w plugin_path = true
       /\ path_exists dirs w service_path = true)
  /\ files w' = files w /\ writes w' = writes w
  /\ (verified = true ->
      stdout w'
      = stdout w ++ [lit "Verified: " ++ lit plugin_path;
                     lit "Verified: " ++ lit service_path])
  /\ (path_exists dirs w plugin_path = false ->
      stdout w'
      = stdout w
        ++ [lit "Error: " ++ lit plugin_path ++ lit " does not exist"])
  /\ (path_exists dirs w plugin_path = true ->
      path_exists dirs w service_path = false ->
      stdout w'
      = stdout w
        ++ [lit "Error: " ++ lit service_path ++ lit " does not exist"]).
Proof.
  cbv zeta. unfold verify_files_exist.
  destruct (path_exists dirs w (swift_path project_root "CloudKitPlugin.swift"));
    cbn [negb];
    [destruct (path_exists dirs w
                 (swift_path project_root "CloudKitService.swift"));
     cbn [negb]|];
    unfold print; cbn [files writes stdout];
    repeat split; try tauto; try discriminate; try (intros [? ?]; discriminate);
    intros; now rewrite <- ?app_assoc.
Qed.

Lemma verify_files_exist_checks_witness :
  stdout (snd (verify_files_exist project_dirs "/app" plugin_only_world))
  = [lit "Error: /app/ios/Runner/CloudKitService.swift does not exist"]
  /\ stdout (snd (verify_files_exist project_dirs "/app" project_world))
     = [lit "Verified: /app/ios/Runner/CloudKitPlugin.swift";
        lit "Verified: /app/ios/Runner/CloudKitService.swift"].
Proof.
  split.
  - pose proof (verify_files_exist_checks project_dirs "/app"
                  plugin_only_world) as H.
    cbv zeta in H.
    destruct (verify_files_exist project_dirs "/app" plugin_only_world)
      as [verified w'].
    destruct H as (_ & _ & _ & _ & _ & H).
    cbn [snd]. rewrite H; [reflexivity | vm_compute; reflexivity
                          | vm_compute; reflexivity].
  - pose proof (verify_files_exist_checks project_dirs "/app" project_world)
      as H.
    cbv zeta in H.
    destruct (verify_files_exist project_dirs "/app" project_world)
      as [verified w'].
    destruct H as (Hv & _ & _ & H & _).
    cbn [snd]. rewrite H; [reflexivity|].
    apply Hv. split; vm_compute; reflexivity.
Defined.

Lemma modify_pbxproj_missing project_path w g :
  files w !! pbxproj_path project_path = None ->
  modify_pbxproj project_path w g
  = (Raise (FileNotFoundError (pbxproj_path project_path)), w, g).
Proof.
  intros H. unfold modify_pbxproj, read_pbxproj. now rewrite H.
Qed.

Lemma last_print line w : last (stdout (print line w)) = Some line.
Proof. apply last_snoc. Qed.

(** X12.  The exit status of [main].  It is 0 exactly when the two Swift
    files, the project directory and the manifest exist, and 1 otherwise.
    With status 1 nothing was written, no byte of the random source was
    read, and the last line printed begins with "Error: ".  With status 0
    the manifest was written once, with the output of the four editors on
    what it held, 48 bytes were read, and the last line printed is the third
    of the next steps. *)
Theorem main_exit_status re_message dirs project_root w g :
  let '(status, w', g') := main re_message dirs project_root w g in
  (status = 0 \/ status = 1)
  /\ (status = 0
      <-> path_exists dirs w (swift_path project_root "CloudKitPlugin.swift")
          = true
          /\ path_exists dirs w (swift_path project_root "CloudKitService.swift")
             = true
          /\ path_exists dirs w (xcode_project project_root) = true
          /\ is_Some (files w !! pbxproj_path (xcode_project project_root)))
  /\ (status = 1 ->
      files w' = files w /\ writes w' = writes w /\ g' = g
      /\ exists message, last (stdout w') = Some (lit "Error: " ++ message))
  /\ (status = 0 ->
      exists content out,
        files w !! pbxproj_path (xcode_project project_root) = Some content
        /\ pipeline content (fst (fst (generate_ids g)))
             (snd (fst (generate_ids g))) = Some out
        /\ writes w' = writes w ++ [(pbxproj_path (xcode_project project_root), out)]
        /\ files w' = <[pbxproj_path (xcode_project project_root) := out]> (files w)
        /\ g' = {| entropy := entropy g; cursor := (cursor g + 48)%nat |}
        /\ last (stdout w')
           = Some (lit "  3. Build the project to ensure everything compiles")).
Proof.
  unfold main, verify_files_exist.
  destruct (path_exists dirs w (swift_path project_root "CloudKitPlugin.swift"))
    eqn:Hp; cbn [negb].
  2:{ split; [now right|]. split; [split; [discriminate|]|].
      - intros (? & _); discriminate.
      - split; [|discriminate]. intros _.
        repeat split. eexists. apply last_print. }
  destruct (path_exists dirs w (swift_path project_root "CloudKitService.swift"))
    eqn:Hs; cbn [negb].
  2:{ split; [now right|]. split; [split; [discriminate|]|].
      - intros (_ & ? & _); discriminate.
      - split; [|discriminate]. intros _.
        repeat split. eexists. apply last_print. }
  match goal with
  | |- context [path_exists dirs ?w1 (xcode_project project_root)] =>
      change (path_exists dirs w1 (xcode_project project_root))
        with (path_exists dirs w (xcode_project project_root))
  end.
  destruct (path_exists dirs w (xcode_project project_root)) eqn:Hx;
    cbn [negb].
  2:{ split; [now right|]. split; [split; [discriminate|]|].
      - intros (_ & _ & ? & _); discriminate.
      - split; [|discriminate]. intros _.
        repeat split. eexists. apply last_print. }
  destruct (files w !! pbxproj_path (xcode_project project_root))
    as [content|] eqn:Hfile.
  - match goal with
    | |- context [modify_pbxproj _ ?w1 g] =>
        destruct (modify_pbxproj_run (xcode_project project_root) w1 g content
                    Hfile) as (out & Hout & ->)
    end.
    split; [now left|]. split; [split; [intros _; eauto|reflexivity]|].
    split; [discriminate|]. intros _. exists content, out.
    split; [reflexivity|]. split; [assumption|].
    split; [reflexivity|]. split; [reflexivity|].
    split; [now rewrite generate_ids_drawn|]. apply last_print.
  - match goal with
    | |- context [modify_pbxproj _ ?w1 g] =>
        rewrite (modify_pbxproj_missing (xcode_project project_root) w1 g Hfile)
    end.
    split; [now right|]. split; [split; [discriminate|]|].
    + intros (_ & _ & _ & [? ?]); discriminate.
    + split; [|discriminate]. intros _.
      repeat split. eexists. apply last_print.
Qed.

Lemma main_exit_status_witness :
  fst (fst (main [] project_dirs "/app" project_world (constant_rng 171))) = 0
  /\ fst (fst (main [] project_dirs "/app" plugin_only_world
                 (constant_rng 171))) = 1.
Proof.
  split.
  - pose proof (main_exit_status [] project_dirs "/app" project_world
                  (constant_rng 171)) as H.
    destruct (main [] project_dirs "/app" project_world (constant_rng 171))
      as [[status w'] g'].
    destruct H as (_ & H & _). apply H.
    split; [vm_compute; reflexivity|]. split; [vm_compute; reflexivity|].
    split; [vm_compute; reflexivity|].
    eexists. unfold project_world. cbn [files]. vm_compute. reflexivity.
  - pose proof (main_exit_status [] project_dirs "/app" plugin_only_world
                  (constant_rng 171)) as H.
    destruct (main [] project_dirs "/app" plugin_only_world (constant_rng 171))
      as [[status w'] g'].
    destruct H as ([H0|H1] & H & _); [|exact H1].
    apply H in H0. destruct H0 as (_ & H0 & _).
    vm_compute in H0. discriminate.
Defined.

Lemma stdout_print_next_steps w :
  stdout (print_next_steps w)
  = stdout w
    ++ [[]; lit "Successfully added CloudKit files to Xcode project!"; [];
        lit "Next steps:"; lit "  1. Open ios/Runner.xcodeproj in Xcode";
        lit "  2. Verify CloudKitPlugin.swift and CloudKitService.swift appear in the Runner group";
        lit "  3. Build the project to ensure everything compiles"].
Proof.
  unfold print_next_steps. rewrite !stdout_print, <- !app_assoc. reflexivity.
Qed.

Lemma does_not_exist_line p :
  lit "Error: Failed to modify pbxproj file"
  <> lit "Error: " ++ lit p ++ lit " does not exist".
Proof.
  intros E. apply (f_equal last) in E. rewrite !last_app in E.
  vm_compute in E. discriminate.
Qed.

(** Two lines that differ in their first eight characters. *)
Ltac differ_early :=
  let E := fresh "E" in
  intros E; apply (f_equal (take 8)) in E; vm_compute in E; discriminate.

(** X13.  [main] never prints "Error: Failed to modify pbxproj file".  The
    line is in the branch for a run of [modify_pbxproj] that returns
    [False], and there is no such run: none of the lines that [main] adds
    to the output is that one. *)
Theorem main_never_reports_failed_edit re_message dirs project_root w g :
  exists printed,
    stdout (snd (fst (main re_message dirs project_root w g)))
    = stdout w ++ printed
    /\ lit "Error: Failed to modify pbxproj file" ∉ printed.
Proof.
  unfold main, verify_files_exist.
  destruct (path_exists dirs w (swift_path project_root "CloudKitPlugin.swift"));
    cbn [negb].
  2:{ eexists. split; [apply stdout_print|].
      rewrite not_elem_of_cons. split; [|apply not_elem_of_nil].
      apply does_not_exist_line. }
  destruct (path_exists dirs w (swift_path project_root "CloudKitService.swift"));
    cbn [negb].
  2:{ eexists. split; [apply stdout_print|].
      rewrite not_elem_of_cons. split; [|apply not_elem_of_nil].
      apply does_not_exist_line. }
  match goal with
  | |- context [path_exists dirs ?w1 (xcode_project project_root)] =>
      change (path_exists dirs w1 (xcode_project project_root))
        with (path_exists dirs w (xcode_project project_root))
  end.
  destruct (path_exists dirs w (xcode_project project_root)); cbn [negb].
  2:{ eexists. split.
      - cbn [fst snd]. rewrite !stdout_print, <- !app_assoc. reflexivity.
      - cbn [app]. rewrite !not_elem_of_cons.
        repeat split; first [apply not_elem_of_nil | differ_early]. }
  destruct (files w !! pbxproj_path (xcode_project project_root))
    as [content|] eqn:Hfile.
  - match goal with
    | |- context [modify_pbxproj _ ?w1 g] =>
        destruct (modify_pbxproj_run (xcode_project project_root) w1 g content
                    Hfile) as (out & _ & ->)
    end.
    eexists. split.
    + cbn [fst snd]. rewrite stdout_print_next_steps. cbn [stdout].
      rewrite !stdout_print, <- !app_assoc. reflexivity.
    + unfold run_report. cbn [app]. rewrite !not_elem_of_cons.
      repeat split; first [apply not_elem_of_nil | differ_early].
  - match goal with
    | |- context [modify_pbxproj _ ?w1 g] =>
        rewrite (modify_pbxproj_missing (xcode_project project_root) w1 g Hfile)
    end.
    eexists. split.
    + cbn [fst snd]. rewrite !stdout_print, <- !app_assoc. reflexivity.
    + cbn [app exn_text]. rewrite !not_elem_of_cons.
      repeat split; first [apply not_elem_of_nil | differ_early].
Qed.

(** ** More on the editors *)

(** X7.  Where the bridging-header entry is followed by the closing
    delimiter, the group editor stops at its first substitution: the
    fallback pattern is not tried, whatever it would match, every insertion
    is between the bridging-header entry and the delimiter, and the buffer
    gets longer. *)
Theorem primary_match_skips_fallback content file_ids :
  occurs runner_group_pattern content ->
  add_to_runner_group content file_ids
  = sub runner_group_pattern (group_replacer file_ids) content
  /\ inserted (group_refs file_ids) (eq header_line) (eq group_closing)
       content (add_to_runner_group content file_ids)
  /\ (length content < length (add_to_runner_group content file_ids))%nat.
Proof.
  intros Hocc.
  assert (Hne : sub runner_group_pattern (group_replacer file_ids) content
                <> content).
  { intros He. now apply primary_fixed in He. }
  assert (E : add_to_runner_group content file_ids
              = sub runner_group_pattern (group_replacer file_ids) content).
  { rewrite add_to_runner_group_eq. cbv zeta.
    destruct (decide _) as [He|_]; [now destruct Hne|reflexivity]. }
  assert (Hins : inserted (group_refs file_ids) (eq header_line)
                   (eq group_closing) content
                   (add_to_runner_group content file_ids)).
  { rewrite E.
    eapply inserted_weaken; [| |apply group_sub_inserted];
      intros m Hm; apply lang_lit1 in Hm; auto. }
  split; [exact E|]. split; [exact Hins|].
  pose proof (sublist_length _ _ (inserted_sublist _ _ _ _ _ Hins)) as Hle.
  destruct (decide (length (add_to_runner_group content file_ids)
                    = length content)) as [Hl|Hl]; [|lia].
  apply (inserted_same_length _ _ _ _ _ Hins) in Hl;
    [|apply group_refs_nonempty].
  rewrite E in Hl. now destruct Hne.
Qed.

Lemma primary_match_skips_fallback_witness :
  occurs alt_pattern runner_manifest
  /\ add_to_runner_group runner_manifest sample_file_ids
     = sub runner_group_pattern (group_replacer sample_file_ids)
         runner_manifest.
Proof.
  split.
  - apply occurs_searchb. vm_compute; reflexivity.
  - apply (primary_match_skips_fallback runner_manifest sample_file_ids).
    apply occurs_searchb. vm_compute; reflexivity.
Defined.

(** X8.  The closing delimiter of the phase pattern has two tabs.  Where
    the files list closes on a line of three tabs, the first tab goes to
    the first group: the two entries are put in after that tab, and the
    delimiter is left with two. *)
Theorem closing_line_of_three_tabs u blk v build_ids :
  lang (group1 sources_phase_pattern) blk ->
  (forall i, (i < length u)%nat ->
             ~ occ_at phase_key
                 (u ++ blk ++ [tab; tab; tab] ++ lit ");" ++ v) i) ->
  add_to_sources_build_phase (u ++ blk ++ [tab; tab; tab] ++ lit ");" ++ v)
    build_ids
  = u ++ blk ++ [tab] ++ phase_ref (plugin build_ids) "CloudKitPlugin.swift"
      ++ phase_ref (service build_ids) "CloudKitService.swift"
      ++ [tab; tab] ++ lit ");" ++ add_to_sources_build_phase v build_ids.
Proof.
  intros Hblk Hu.
  assert (Hblk' : lang (group1 sources_phase_pattern) (blk ++ [tab])).
  { apply phase_block_extend; [assumption|].
    apply not_elem_check. reflexivity. }
  assert (Es : u ++ blk ++ [tab; tab; tab] ++ lit ");" ++ v
               = u ++ (blk ++ [tab]) ++ phase_closing ++ v).
  { unfold phase_closing. now rewrite <- !app_assoc. }
  rewrite Es in *. rewrite !add_to_sources_build_phase_eq.
  rewrite (sub_first _ _ u (blk ++ [tab]) phase_closing v).
  - rewrite sources_replacer_refs. unfold phase_refs, phase_closing.
    now rewrite <- !app_assoc.
  - eapply (first_literal_no_match _ phase_key); eauto; reflexivity.
  - now apply match_at_sources.
  - intros H. apply app_eq_nil in H as [_ H]. discriminate.
Qed.

Lemma closing_line_of_three_tabs_witness :
  add_to_sources_build_phase
    (plain_text ++ xcode_phase_block ++ [tab; tab; tab] ++ lit ");" ++ [nl])
    sample_build_ids
  = plain_text ++ xcode_phase_block ++ [tab]
      ++ phase_ref (plugin sample_build_ids) "CloudKitPlugin.swift"
      ++ phase_ref (service sample_build_ids) "CloudKitService.swift"
      ++ [tab; tab] ++ lit ");" ++ [nl].
Proof.
  apply (closing_line_of_three_tabs plain_text xcode_phase_block [nl]
           sample_build_ids).
  - apply in_lang_sound. vm_compute; reflexivity.
  - apply no_occ_before_check. vm_compute; reflexivity.
Defined.



Lemma only_at_count a s i :
  a <> [] -> only_at a s i -> occ_at a s i -> count_sub a s = 1%nat.
Proof.
  intros Ha. revert i. induction s as [|c s IH]; intros i Honly Hocc.
  - unfold occ_at in Hocc. rewrite drop_nil in Hocc.
    apply prefix_nil_inv in Hocc. contradiction.
  - cbn [count_sub]. destruct i as [|i].
    + apply occ_at_starts in Hocc. cbn [drop] in Hocc. rewrite Hocc.
      assert (H0 : count_sub a s = O).
      { apply count_sub_zero; [assumption|]. intros j Hj.
        specialize (Honly (S j) Hj). discriminate. }
      rewrite H0. reflexivity.
    + destruct (starts_with a (c :: s)) eqn:Es.
      * assert (H0 : occ_at a (c :: s) 0) by (now apply occ_at_starts).
        specialize (Honly O H0). discriminate.
      * apply (IH i); [|exact Hocc].
        intros j Hj. specialize (Honly (S j) Hj). now injection Honly.
Qed.


